(** * tzxbrowser: the TZX container reader and its block decoders

    A shallow embedding of the Go sources:
    - [tzx/read.go]: [header], [Reader], [NewReader], [readHeader],
      [header.valid], [readDataBlock], [ReadBlocks], [SetSignalLevel.Process];
    - [tape/block_turbo_speed_data.go]: [TurboSpeedData.Process];
    - [spectrum/tzx/blocks]: [GroupStart], [GroupEnd], [TurboSpeedData.Read],
      [StopTapeWhen48kMode.Read];
    - the loop blocks [LoopStart] and [LoopEnd].

    A byte source ([bufio.Reader], [tape.File], [storage.Reader]) is the list
    of bytes not yet read; a routine that reads from it is a function from
    that list to its result and the bytes left. *)

From Stdlib Require Import String ZArith List Lia Bool.
From Stdlib Require Import Strings.Byte.
Import ListNotations.
Open Scope Z_scope.

(** ** Byte sources and the reading monad *)

Definition stream := list byte.

Definition M (A : Type) : Type := stream -> A * stream.

Definition ret {A} (a : A) : M A := fun s => (a, s).

Definition bind {A B} (c : M A) (k : A -> M B) : M B :=
  fun s => let (a, s') := c s in k a s'.

Declare Scope reader_scope.
Delimit Scope reader_scope with reader.
Notation "x <- c ;; k" := (bind c (fun x => k))
  (at level 61, c at next level, right associativity) : reader_scope.
Notation "c ;;; k" := (bind c (fun _ => k))
  (at level 61, right associativity) : reader_scope.
Open Scope reader_scope.

(** The numeric value of a byte, as Go's [uint16(b)] or [uint32(b)]. *)
Definition byteZ (b : byte) : Z := Z.of_N (Byte.to_N b).

(** ** Go library functions the sources call *)

Inductive error : Type :=
| EOF                                   (* io.EOF *)
| ErrUnexpectedEOF                      (* io.ErrUnexpectedEOF *)
| TruncatedInput                        (* a field reader ran out of bytes *)
| BinaryReadFailed (cause : error)      (* "binary.Read failed: %v" *)
| NotCorrectFormat                      (* "TZX file is not in correct format" *)
| UnsupportedBlockID (id : byte)        (* "TZX block ID 0x%02X is deprecated/not supported" *)
| ExpectedBlockID (want got : byte)     (* "expected block ID 0x%02x, got 0x%02x" *)
| Wrapped (cause : error) (msg : string).

Module errors.

(** [github.com/pkg/errors]: [Wrap] and [Wrapf] annotate an error with a
    message; both return nil when the error they are given is nil. *)
Definition Wrap (err : option error) (msg : string) : option error :=
  match err with
  | None => None
  | Some e => Some (Wrapped e msg)
  end.

Definition Wrapf (err : option error) (format : string) : option error :=
  Wrap err format.

End errors.

Module bufio.

(** [ReadByte] of a [bufio.Reader]: the next byte, or [io.EOF] at the end. *)
Definition ReadByte : M (byte * option error) :=
  fun s =>
    match s with
    | [] => ((x00, Some EOF), [])
    | b :: s' => ((b, None), s')
    end.

(** [Read] of a [bufio.Reader] that has all the bytes left in its buffer,
    for a slice of [n] bytes: it copies what the buffer has, up to [n], and
    reports [io.EOF] only when asked for bytes with none left.  It is one of
    the behaviours an [io.Reader] may show, used to run examples. *)
Definition Read_buffered (n : nat) (s : stream) : nat * option error :=
  (Nat.min n (length s),
   if ((0 <? n) && (length s =? 0))%nat then Some EOF else None).

End bufio.

Module binary.

(** [binary.LittleEndian.Uint16] and [Uint32] on a buffer. *)
Definition Uint16 (b : list byte) : Z :=
  Z.lor (byteZ (nth 0 b x00)) (Z.shiftl (byteZ (nth 1 b x00)) 8).

Definition Uint32 (b : list byte) : Z :=
  Z.lor (Z.lor (Z.lor (byteZ (nth 0 b x00))
                      (Z.shiftl (byteZ (nth 1 b x00)) 8))
               (Z.shiftl (byteZ (nth 2 b x00)) 16))
        (Z.shiftl (byteZ (nth 3 b x00)) 24).

End binary.

(** ** The primitive field reader *)

Module FieldReader.

(** A buffer of [n] bytes ([make([]byte, n)]) filled from the front of the
    stream; the bytes the stream cannot supply stay at zero. *)
Definition fill (n : nat) (s : stream) : list byte :=
  firstn n s ++ repeat x00 (n - length s).

(** Modelled from the spec: [tape.File], [storage.Reader] and the [tape]
    helpers over [bufio.Reader] are missing from the Go files embedded here.
    Section 4.1 gives their reads: forward-only, fixed-width little-endian
    integers and raw runs of [n] bytes, failing with [TruncatedInput] when
    fewer bytes remain than requested.  [readBytes] is that read: the buffer,
    the failure if any, and the stream advanced by [n]. *)
Definition readBytes (n : nat) : M (list byte * option error) :=
  fun s =>
    ((fill n s, if (length s <? n)%nat then Some TruncatedInput else None),
     skipn n s).

(** The shapes the call sites use.  Where the Go call takes one value and
    no error ([t.Pause = file.ReadShort()]) only the value comes back. *)
Definition ReadByte : M byte :=
  r <- readBytes 1 ;; ret (nth 0 (fst r) x00).

Definition ReadByteErr : M (byte * option error) :=
  r <- readBytes 1 ;; ret (nth 0 (fst r) x00, snd r).

Definition ReadShort : M Z :=
  r <- readBytes 2 ;; ret (binary.Uint16 (fst r)).

Definition ReadLong : M Z :=
  r <- readBytes 4 ;; ret (binary.Uint32 (fst r)).

Definition ReadBytes (n : nat) : M (list byte) :=
  r <- readBytes n ;; ret (fst r).

Definition ReadNextBytes (n : nat) : M (list byte) := ReadBytes n.

Definition BytesToLong (b : list byte) : Z := binary.Uint32 b.

(** [reader.Read(data)] with [len(data) = n].  The call has the shape of
    [io.Reader]'s [Read]: it reports a count between 0 and [n] and an error,
    and moves the reader on by the count.  Which count and which error is the
    affair of the reader behind it, which is missing from the Go files
    embedded here: [rd] gives them, from [n] and the bytes left. *)
Definition Read (rd : nat -> stream -> nat * option error) (n : nat)
  : M (nat * option error) :=
  fun s =>
    let (k, err) := rd n s in
    ((Nat.min k n, err), skipn (Nat.min k n) s).

End FieldReader.

(** ** Package [tape]: the turbo speed data block, ID 11h *)

Module Tape.

Record TurboSpeedData : Type := mkTurboSpeedData {
  PilotPulse      : Z;         (* uint16 *)
  SyncFirstPulse  : Z;         (* uint16 *)
  SyncSecondPulse : Z;         (* uint16 *)
  ZeroBitPulse    : Z;         (* uint16 *)
  OneBitPulse     : Z;         (* uint16 *)
  PilotTone       : Z;         (* uint16 *)
  UsedBits        : byte;      (* uint8 *)
  Pause           : Z;         (* uint16 *)
  Length          : Z;         (* uint16 *)
  LengthSpareByte : byte;      (* uint8 *)
  Data            : list byte  (* []uint8 *)
}.

(** The Go zero value [TurboSpeedData{}]. *)
Definition zero : TurboSpeedData :=
  mkTurboSpeedData 0 0 0 0 0 0 x00 0 0 x00 [].

(** [func (t *TurboSpeedData) Process(file *File)].  The statements in the
    order of the source; a field the routine does not assign keeps the value
    it had in [t].  Both [file.ReadByte()] calls drop their error, and the
    bytes [file.ReadBytes] returns are dropped too. *)
Definition Process (t : TurboSpeedData) : M TurboSpeedData :=
  pilotPulse      <- FieldReader.ReadShort ;;
  syncFirstPulse  <- FieldReader.ReadShort ;;
  syncSecondPulse <- FieldReader.ReadShort ;;
  zeroBitPulse    <- FieldReader.ReadShort ;;
  pilotTone       <- FieldReader.ReadShort ;;
  usedBits        <- FieldReader.ReadByteErr ;;
  pause           <- FieldReader.ReadShort ;;
  length          <- FieldReader.ReadShort ;;
  lengthSpareByte <- FieldReader.ReadByteErr ;;
  FieldReader.ReadBytes (Z.to_nat length) ;;;
  ret {| PilotPulse := pilotPulse;
         SyncFirstPulse := syncFirstPulse;
         SyncSecondPulse := syncSecondPulse;
         ZeroBitPulse := zeroBitPulse;
         OneBitPulse := OneBitPulse t;
         PilotTone := pilotTone;
         UsedBits := fst usedBits;
         Pause := pause;
         Length := length;
         LengthSpareByte := fst lengthSpareByte;
         Data := Data t |}.

Definition Id : byte := x11.   (* return 17 *)

End Tape.

(** ** Package [tzx]: the set signal level block, ID 2Bh *)

Module SetSignalLevel.

Record t : Type := mk {
  Length      : Z;     (* uint32 *)
  SignalLevel : byte   (* uint8 *)
}.

Definition zero : t := mk 0 x00.

(** [func (s *SetSignalLevel) Process(file *tape.File)]. *)
Definition Process (_ : t) : M t :=
  length      <- FieldReader.ReadLong ;;
  signalLevel <- FieldReader.ReadByteErr ;;
  ret {| Length := length; SignalLevel := fst signalLevel |}.

Definition Id : byte := x2b.   (* return 43 *)

End SetSignalLevel.

(** ** Package [blocks] *)

Module Blocks.

(** *** StopTapeWhen48kMode, ID 2Ah *)

Record StopTapeWhen48kMode : Type := mkStopTapeWhen48kMode {
  stLength : Z   (* Length uint32 *)
}.

(** [func (s *StopTapeWhen48kMode) Read(reader *storage.Reader)]. *)
Definition StopTapeWhen48kMode_Read (_ : StopTapeWhen48kMode)
  : M StopTapeWhen48kMode :=
  length <- FieldReader.ReadLong ;;
  ret {| stLength := length |}.

(** *** GroupStart, ID 21h, and GroupEnd, ID 22h *)

Record GroupStart : Type := mkGroupStart {
  gsLength  : byte;       (* Length uint8 *)
  GroupName : list byte   (* []byte *)
}.

(** [func (g *GroupStart) Read(reader *storage.Reader)]: the bytes read are
    appended to [g.GroupName] one by one. *)
Definition GroupStart_Read (g : GroupStart) : M GroupStart :=
  length <- FieldReader.ReadByte ;;
  name   <- FieldReader.ReadNextBytes (N.to_nat (Byte.to_N length)) ;;
  ret {| gsLength := length;
         GroupName := fold_left (fun acc b => acc ++ [b]) name (GroupName g) |}.

(** [func (g *GroupEnd) Read(reader *storage.Reader) {}]. *)
Definition GroupEnd_Read : M unit := ret tt.

(** *** LoopStart, ID 24h, and LoopEnd, ID 25h *)

Record LoopStart : Type := mkLoopStart {
  RepetitionCount : Z   (* uint16 *)
}.

(** [func (l *LoopStart) Read(reader *bufio.Reader)]. *)
Definition LoopStart_Read (_ : LoopStart) : M LoopStart :=
  count <- FieldReader.ReadShort ;;
  ret {| RepetitionCount := count |}.

(** [func (l *LoopEnd) Read(reader *bufio.Reader) {}]. *)
Definition LoopEnd_Read : M unit := ret tt.

(** *** TurboSpeedData, ID 11h *)

Record TurboSpeedData : Type := mkTurboSpeedData {
  BlockID         : byte;   (* types.BlockType *)
  PilotPulse      : Z;
  SyncFirstPulse  : Z;
  SyncSecondPulse : Z;
  ZeroBitPulse    : Z;
  OneBitPulse     : Z;
  PilotTone       : Z;
  UsedBits        : byte;
  Pause           : Z;
  Length          : Z;      (* uint32 *)
  DataBlock       : option (list byte)   (* tap.BlockI, nil until set *)
}.

Definition TurboSpeedData_zero : TurboSpeedData :=
  mkTurboSpeedData x00 0 0 0 0 0 0 x00 0 0 None.

(** [types.TurboSpeedData], the block's ID as its doc comment gives it. *)
Definition TurboSpeedData_Id : byte := x11.

Definition with_BlockID (t : TurboSpeedData) (id : byte) : TurboSpeedData :=
  mkTurboSpeedData id (PilotPulse t) (SyncFirstPulse t) (SyncSecondPulse t)
    (ZeroBitPulse t) (OneBitPulse t) (PilotTone t) (UsedBits t) (Pause t)
    (Length t) (DataBlock t).

(** [func (t *TurboSpeedData) Read(reader *storage.Reader) error].  The
    record is returned as the routine leaves it, next to the error; [rd] is
    what [reader.Read] reports (see [FieldReader.Read]). *)
Definition TurboSpeedData_Read (rd : nat -> stream -> nat * option error)
           (t : TurboSpeedData)
  : M (TurboSpeedData * option error) :=
  blockID <- FieldReader.ReadByte ;;
  if negb (Byte.eqb blockID TurboSpeedData_Id) then
    ret (with_BlockID t blockID,
         Some (ExpectedBlockID TurboSpeedData_Id blockID))
  else
    pilotPulse      <- FieldReader.ReadShort ;;
    syncFirstPulse  <- FieldReader.ReadShort ;;
    syncSecondPulse <- FieldReader.ReadShort ;;
    zeroBitPulse    <- FieldReader.ReadShort ;;
    oneBitPulse     <- FieldReader.ReadShort ;;
    pilotTone       <- FieldReader.ReadShort ;;
    usedBits        <- FieldReader.ReadByte ;;
    pause           <- FieldReader.ReadShort ;;
    length          <- FieldReader.ReadBytes 3 ;;
    let length := length ++ [x00] in
    let Length' := FieldReader.BytesToLong length in
    res <- FieldReader.Read rd (Z.to_nat Length') ;;
    ret ({| BlockID := blockID;
            PilotPulse := pilotPulse;
            SyncFirstPulse := syncFirstPulse;
            SyncSecondPulse := syncSecondPulse;
            ZeroBitPulse := zeroBitPulse;
            OneBitPulse := oneBitPulse;
            PilotTone := pilotTone;
            UsedBits := usedBits;
            Pause := pause;
            Length := Length';
            DataBlock := DataBlock t |},
         snd res).

End Blocks.

(** ** Package [tzx]: the container reader *)

Definition supportedMajorVersion : Z := 1.
Definition supportedMinorVersion : Z := 20.

Record header : Type := mkheader {
  Signature    : list byte;   (* [7]byte *)
  Terminator   : byte;
  MajorVersion : byte;
  MinorVersion : byte
}.

Definition header_zero : header := mkheader (repeat x00 7) x00 x00 x00.

(** The bytes of the string ["ZXTape!"]. *)
Definition ZXTape : list byte := [x5a; x58; x54; x61; x70; x65; x21].

Fixpoint bytes_eqb (a b : list byte) : bool :=
  match a, b with
  | [], [] => true
  | x :: a', y :: b' => Byte.eqb x y && bytes_eqb a' b'
  | _, _ => false
  end.

(** [binary.Read(r.reader, binary.LittleEndian, &r.header)]: the ten bytes of
    the struct are read in full before any field is set; nothing read is
    [io.EOF], fewer than ten is [io.ErrUnexpectedEOF]. *)
Definition binary_Read_header : M (header * option error) :=
  fun s =>
    match s with
    | [] => ((header_zero, Some EOF), [])
    | _ :: _ =>
        if (length s <? 10)%nat then ((header_zero, Some ErrUnexpectedEOF), [])
        else ((mkheader (firstn 7 s) (nth 7 s x00) (nth 8 s x00) (nth 9 s x00),
               None),
              skipn 10 s)
    end.

(** What [header.valid] prints on standard output. *)
Inductive output : Type :=
| VersionWarning (major minor : byte).   (* "WARNING! Expected TZX v%d.%d but got v%d.%d. ..." *)

(** [func (h header) valid() error]. *)
Definition valid (h : header) : option error * list output :=
  let validationError : option error := None in
  let validationError :=
    if negb (bytes_eqb (Signature h) ZXTape)
    then errors.Wrapf validationError "Incorrect signature, got '%s'"
    else validationError in
  let validationError :=
    if negb (Byte.eqb (Terminator h) x1a)
    then errors.Wrapf validationError "Incorrect terminator, got '%b'"
    else validationError in
  if negb (byteZ (MajorVersion h) =? supportedMajorVersion) then
    (errors.Wrapf validationError "Invalid version, got v%d.%d", [])
  else if byteZ (MinorVersion h) <? supportedMinorVersion then
    (validationError, [VersionWarning (MajorVersion h) (MinorVersion h)])
  else
    (validationError, []).

(** [func (r *Reader) readHeader() error]: the header read and the error. *)
Definition readHeader : M (header * option error) :=
  res <- binary_Read_header ;;
  match snd res with
  | Some err => ret (fst res, Some (BinaryReadFailed err))
  | None =>
      if negb (bytes_eqb (Signature (fst res)) ZXTape)
      then ret (fst res, Some NotCorrectFormat)
      else ret (fst res, None)
  end.

(** The block variants [readDataBlock] constructs whose decode routines are
    missing from the Go files embedded here. *)
Inductive ExternalKind : Type :=
| StandardSpeedData | PureTone | SequenceOfPulses | PureData | DirectRecording
| CswRecording | GeneralizedData | PauseTapeCommand | JumpTo | CallSequence
| ReturnFromSequence | Select | TextDescription | Message | HardwareType
| CustomInfo | GlueBlock.

(** The case label under which [readDataBlock] constructs each of them.
    Their [Id()] methods are missing too; nothing here stands for them. *)
Definition ExternalKind_tag (k : ExternalKind) : byte :=
  match k with
  | StandardSpeedData => x10 | PureTone => x12 | SequenceOfPulses => x13
  | PureData => x14 | DirectRecording => x15 | CswRecording => x18
  | GeneralizedData => x19 | PauseTapeCommand => x20 | JumpTo => x23
  | CallSequence => x26 | ReturnFromSequence => x27 | Select => x28
  | TextDescription => x30 | Message => x31 | HardwareType => x33
  | CustomInfo => x35 | GlueBlock => x5a
  end.

(** The routines of the repository that are missing from the Go files
    embedded here, taken as parameters: [blocks.ArchiveInfo] with its [Read], and the [Read] of each
    [ExternalKind], each with the zero value it starts from.  A routine reads
    forward only, so it is given by what it decodes and how many bytes it
    moves the reader on. *)
Class BlockLibrary : Type := {
  ArchiveInfo      : Type;
  ArchiveInfo_zero : ArchiveInfo;                                   (* blocks.ArchiveInfo{} *)
  ArchiveInfo_Read : ArchiveInfo -> stream -> ArchiveInfo * nat;
  External         : Type;
  External_zero    : ExternalKind -> External;                      (* &blocks.X{} *)
  External_Read    : ExternalKind -> External -> stream -> External * nat
}.

Definition advance {A} (f : stream -> A * nat) : M A :=
  fun s => let (a, n) := f s in (a, skipn n s).

Section Container.

Context {lib : BlockLibrary}.

(** [tape.Block]: the variants behind the interface. *)
Inductive Block : Type :=
| TurboSpeedData (b : Tape.TurboSpeedData)
| GroupStart (b : Blocks.GroupStart)
| GroupEnd
| LoopStart (b : Blocks.LoopStart)
| LoopEnd
| StopTapeWhen48kMode (b : Blocks.StopTapeWhen48kMode)
| SetSignalLevel (b : SetSignalLevel.t)
| Other (k : ExternalKind) (b : External).

(** The tag a block record stands for: the [Id()] of its variant where the
    sources have it (17 and 43 for the two [Process] variants, 21h, 22h, 24h,
    25h and 2Ah for the others), and for a variant whose [Id()] is missing the
    case label under which [readDataBlock] constructs it. *)
Definition Block_Id (b : Block) : byte :=
  match b with
  | TurboSpeedData _ => Tape.Id
  | GroupStart _ => x21
  | GroupEnd => x22
  | LoopStart _ => x24
  | LoopEnd => x25
  | StopTapeWhen48kMode _ => x2a
  | SetSignalLevel _ => SetSignalLevel.Id
  | Other k _ => ExternalKind_tag k
  end.

(** [Reader]: an interface value of [tape.Block] may be nil, so the block
    list holds [option Block]. *)
Record Reader : Type := mkReader {
  reader  : stream;
  hdr     : header;
  archive : ArchiveInfo;
  blocks  : list (option Block)
}.

(** [func NewReader(r *bufio.Reader)]: the reader or nil, the error, and
    what was printed. *)
Definition NewReader (s : stream) : (option Reader * option error) * list output :=
  let '((h, err), s1) := readHeader s in
  match err with
  | Some e => ((None, Some e), [])
  | None =>
      let (err, out) := valid h in
      match err with
      | Some e => ((None, Some e), out)
      | None => ((Some (mkReader s1 h ArchiveInfo_zero []), None), out)
      end
  end.

(** [block.Read(r.reader)] on the interface value: the [Read] of the
    variant behind it. *)
Definition Block_Read (block : Block) : M Block :=
  match block with
  | TurboSpeedData b => b' <- Tape.Process b ;; ret (TurboSpeedData b')
  | GroupStart b => b' <- Blocks.GroupStart_Read b ;; ret (GroupStart b')
  | GroupEnd => Blocks.GroupEnd_Read ;;; ret GroupEnd
  | LoopStart b => b' <- Blocks.LoopStart_Read b ;; ret (LoopStart b')
  | LoopEnd => Blocks.LoopEnd_Read ;;; ret LoopEnd
  | StopTapeWhen48kMode b =>
      b' <- Blocks.StopTapeWhen48kMode_Read b ;; ret (StopTapeWhen48kMode b')
  | SetSignalLevel b => b' <- SetSignalLevel.Process b ;; ret (SetSignalLevel b')
  | Other k b => b' <- advance (External_Read k b) ;; ret (Other k b')
  end.

(** The [switch] of [readDataBlock]: the fresh block a case assigns, or the
    values a case returns at once. *)
Definition readDataBlock_switch (id : byte)
  : Block + (option Block * option error) :=
  match id with
  | x10 => inl (Other StandardSpeedData (External_zero StandardSpeedData))
  | x11 => inl (TurboSpeedData Tape.zero)
  | x12 => inl (Other PureTone (External_zero PureTone))
  | x13 => inl (Other SequenceOfPulses (External_zero SequenceOfPulses))
  | x14 => inl (Other PureData (External_zero PureData))
  | x15 => inl (Other DirectRecording (External_zero DirectRecording))
  | x18 => inl (Other CswRecording (External_zero CswRecording))
  | x19 => inl (Other GeneralizedData (External_zero GeneralizedData))
  | x20 => inl (Other PauseTapeCommand (External_zero PauseTapeCommand))
  | x21 => inl (GroupStart (Blocks.mkGroupStart x00 []))
  | x22 => inl GroupEnd
  | x23 => inl (Other JumpTo (External_zero JumpTo))
  | x24 => inl (LoopStart (Blocks.mkLoopStart 0))
  | x25 => inl LoopEnd
  | x26 => inl (Other CallSequence (External_zero CallSequence))
  | x27 => inl (Other ReturnFromSequence (External_zero ReturnFromSequence))
  | x28 => inl (Other Select (External_zero Select))
  | x2a => inl (StopTapeWhen48kMode (Blocks.mkStopTapeWhen48kMode 0))
  | x2b => inl (SetSignalLevel SetSignalLevel.zero)
  | x30 => inl (Other TextDescription (External_zero TextDescription))
  | x31 => inl (Other Message (External_zero Message))
  | x32 => inr (None, None)   (* should never reach here, handle separately! *)
  | x33 => inl (Other HardwareType (External_zero HardwareType))
  | x35 => inl (Other CustomInfo (External_zero CustomInfo))
  | x5a => inl (Other GlueBlock (External_zero GlueBlock))
  | _ => inr (None, Some (UnsupportedBlockID id))
  end.

(** [func (r Reader) readDataBlock(id byte) (tape.Block, error)]: after the
    switch, [block.Read(r.reader)] and [return block, nil]. *)
Definition readDataBlock (id : byte) : M (option Block * option error) :=
  match readDataBlock_switch id with
  | inr early => ret early
  | inl block => block' <- Block_Read block ;; ret (Some block', None)
  end.

(** One turn of the [for] loop of [ReadBlocks]: it goes round again, or the
    function returns. *)
Inductive flow : Type :=
| Continue (r : Reader)
| Return (err : option error) (r : Reader).

Definition ReadBlocks_body (r : Reader) : flow :=
  let '((blockID, err), s1) := bufio.ReadByte (reader r) in
  match err with
  | Some EOF => Return None (mkReader s1 (hdr r) (archive r) (blocks r))
  | Some e => Return (Some e) (mkReader s1 (hdr r) (archive r) (blocks r))
  | None =>
      let '((block, err), s2) := readDataBlock blockID s1 in
      match err with
      | Some e =>
          Return (errors.Wrap (Some e) "Unable to complete reading TZX blocks")
                 (mkReader s2 (hdr r) (archive r) (blocks r))
      | None =>
          if Byte.eqb blockID x32 then
            let (a, s3) := advance (ArchiveInfo_Read ArchiveInfo_zero) s2 in
            Continue (mkReader s3 (hdr r) a (blocks r))
          else
            Continue (mkReader s2 (hdr r) (archive r) (blocks r ++ [block]))
      end
  end.

(** [func (r *Reader) ReadBlocks() error], the loop run for at most [fuel]
    turns: the error returned and the reader as the call leaves it. *)
Fixpoint ReadBlocks_loop (fuel : nat) (r : Reader) : option (option error * Reader) :=
  match fuel with
  | O => None
  | S fuel' =>
      match ReadBlocks_body r with
      | Continue r' => ReadBlocks_loop fuel' r'
      | Return err r' => Some (err, r')
      end
  end.

(** Every turn reads at least the tag byte, so one turn more than there are
    bytes left is enough ([ReadBlocks_total]). *)
Definition ReadBlocks (r : Reader) : option (option error * Reader) :=
  ReadBlocks_loop (S (length (reader r))) r.

(** The tags the loop read on the turns that went round again, each with the
    reader's position right after the tag. *)
Fixpoint tags_read (fuel : nat) (r : Reader) : list (byte * stream) :=
  match fuel with
  | O => []
  | S fuel' =>
      match ReadBlocks_body r, reader r with
      | Continue r', id :: s1 => (id, s1) :: tags_read fuel' r'
      | _, _ => []
      end
  end.

Definition ReadBlocks_tags (r : Reader) : list (byte * stream) :=
  tags_read (S (length (reader r))) r.

(** Opening a tape and reading all its blocks. *)
Definition decode (s : stream) : option (option error * option Reader) :=
  match NewReader s with
  | ((Some r, _), _) =>
      match ReadBlocks r with
      | Some (err, r') => Some (err, Some r')
      | None => None
      end
  | ((None, err), _) => Some (err, None)
  end.

End Container.

(** The two markers that have no body: group end (22h) and loop end (25h),
    each with its tag and the record [readDataBlock] returns for it. *)
Inductive Marker : Type := MGroupEnd | MLoopEnd.

Definition Marker_tag (m : Marker) : byte :=
  match m with MGroupEnd => x22 | MLoopEnd => x25 end.

Definition Marker_block {lib : BlockLibrary} (m : Marker) : Block :=
  match m with MGroupEnd => GroupEnd | MLoopEnd => LoopEnd end.

(** A reader with [front] put before its block list. *)
Definition prepend_blocks {lib : BlockLibrary} (front : list (option Block))
           (r : Reader) : Reader :=
  mkReader (reader r) (hdr r) (archive r) (front ++ blocks r).

(** Tapes that [readDataBlock] can read to the end, by their blocks: a tape
    is empty, or a tag other than 32h that the switch has a case for, followed
    by a tape where the [Read] of its block stops, or the tag 32h followed by
    a tape where the archive info [Read] stops.  The second index is the
    position right after the last 32h tag of the tape, if it has one. *)
Inductive ArchiveTape {lib : BlockLibrary} : stream -> option stream -> Prop :=
| AT_end : ArchiveTape [] None
| AT_block (id : byte) (block : Block) (s : stream) (last : option stream) :
    readDataBlock_switch id = inl block ->
    ArchiveTape (snd (Block_Read block s)) last ->
    ArchiveTape (id :: s) last
| AT_archive (s : stream) (last : option stream) :
    ArchiveTape (snd (advance (ArchiveInfo_Read ArchiveInfo_zero) s)) last ->
    ArchiveTape (x32 :: s)
                (Some (match last with Some p => p | None => s end)).

(** A library to run tapes with archive info blocks on: the archive record
    is a list of bytes, and its [Read] takes a length byte and appends that
    many bytes to the record it is called on.  The rest is as in [bare]. *)
Definition sampleArchive : BlockLibrary := {|
  ArchiveInfo := list byte;
  ArchiveInfo_zero := [];
  ArchiveInfo_Read := fun a s =>
    match s with
    | [] => (a, O)
    | n :: s' =>
        (a ++ firstn (N.to_nat (Byte.to_N n)) s', S (N.to_nat (Byte.to_N n)))
    end;
  External := unit;
  External_zero := fun _ => tt;
  External_Read := fun _ _ _ => (tt, O)
|}.

(** A routine that only moves the reader forward. *)
Definition forward {A} (c : M A) : Prop :=
  forall s, (length (snd (c s)) <= length s)%nat.

(** The ten header bytes of a TZX v1.[minor] tape. *)
Definition validHeader (minor : byte) : stream := ZXTape ++ [x1a; x01; minor].

(** A turbo speed data block as the format lays it out after the tag: the six
    pulse fields at the values the struct's comments give (2168, 667, 735,
    855, 1710, 8063), used bits 8, then the pause, the 3-byte length and the
    data. *)
Definition turboBody (pause length3 data : list byte) : stream :=
  [x78; x08; x9b; x02; xdf; x02; x57; x03; xae; x06; x7f; x1f; x08]
    ++ pause ++ length3 ++ data.

(** The tags [readDataBlock] has a case for. *)
Definition known_tags : list byte :=
  [x10; x11; x12; x13; x14; x15; x18; x19; x20; x21; x22; x23; x24; x25; x26;
   x27; x28; x2a; x2b; x30; x31; x32; x33; x35; x5a].

(** The library with the missing routines left empty: nothing decoded, nothing
    read.  It runs the reader on tapes that hold none of their tags. *)
Definition bare : BlockLibrary := {|
  ArchiveInfo := unit;
  ArchiveInfo_zero := tt;
  ArchiveInfo_Read := fun _ _ => (tt, O);
  External := unit;
  External_zero := fun _ => tt;
  External_Read := fun _ _ _ => (tt, O)
|}.

(** * Properties *)

(** ** Little-endian arithmetic *)

Lemma byteZ_range (b : byte) : 0 <= byteZ b < 256.
Proof.
  unfold byteZ. pose proof (Byte.to_N_bounded b). lia.
Qed.

Lemma lor_shiftl_add (a b n : Z) :
  0 <= n -> 0 <= a < 2 ^ n -> 0 <= b ->
  Z.lor a (Z.shiftl b n) = a + b * 2 ^ n.
Proof.
  intros Hn Ha Hb.
  rewrite Z.shiftl_mul_pow2 by assumption.
  rewrite <- Z.lxor_lor; [symmetry; apply Z.add_nocarry_lxor|];
    apply Z.bits_inj'; intros k Hk; rewrite Z.land_spec, Z.bits_0;
    destruct (Z_lt_le_dec k n) as [Hlt | Hge].
  - rewrite Z.mul_pow2_bits_low by lia. apply andb_false_r.
  - destruct (Z.eq_dec a 0) as [-> | Hne]; [now rewrite Z.bits_0|].
    rewrite (Z.bits_above_log2 a k); [reflexivity | lia |].
    apply Z.log2_lt_pow2; [lia|].
    apply Z.lt_le_trans with (2 ^ n); [lia | apply Z.pow_le_mono_r; lia].
  - rewrite Z.mul_pow2_bits_low by lia. apply andb_false_r.
  - destruct (Z.eq_dec a 0) as [-> | Hne]; [now rewrite Z.bits_0|].
    rewrite (Z.bits_above_log2 a k); [reflexivity | lia |].
    apply Z.log2_lt_pow2; [lia|].
    apply Z.lt_le_trans with (2 ^ n); [lia | apply Z.pow_le_mono_r; lia].
Qed.

Lemma Uint16_le (b0 b1 : byte) (tl : list byte) :
  binary.Uint16 (b0 :: b1 :: tl) = byteZ b0 + 256 * byteZ b1.
Proof.
  unfold binary.Uint16; simpl nth.
  pose proof (byteZ_range b0). pose proof (byteZ_range b1).
  rewrite lor_shiftl_add; change (2 ^ 8) with 256; lia.
Qed.

Lemma Uint32_le (b0 b1 b2 b3 : byte) (tl : list byte) :
  binary.Uint32 (b0 :: b1 :: b2 :: b3 :: tl)
  = byteZ b0 + 256 * byteZ b1 + 65536 * byteZ b2 + 16777216 * byteZ b3.
Proof.
  unfold binary.Uint32; simpl nth.
  pose proof (byteZ_range b0). pose proof (byteZ_range b1).
  pose proof (byteZ_range b2). pose proof (byteZ_range b3).
  rewrite (lor_shiftl_add (byteZ b0) (byteZ b1) 8)
    by (change (2 ^ 8) with 256; lia).
  change (2 ^ 8) with 256.
  rewrite (lor_shiftl_add _ (byteZ b2) 16)
    by (change (2 ^ 16) with 65536; lia).
  change (2 ^ 16) with 65536.
  rewrite (lor_shiftl_add _ (byteZ b3) 24)
    by (change (2 ^ 24) with 16777216; lia).
  change (2 ^ 24) with 16777216.
  lia.
Qed.

(** ** The field reader on a stream that holds the bytes asked for *)

Lemma fill_enough (n : nat) (s : stream) :
  (n <= length s)%nat -> FieldReader.fill n s = firstn n s.
Proof.
  intros H. unfold FieldReader.fill.
  replace (n - length s)%nat with O by lia. apply app_nil_r.
Qed.

Lemma readBytes_app (bs rest : stream) :
  FieldReader.readBytes (length bs) (bs ++ rest) = ((bs, None), rest).
Proof.
  unfold FieldReader.readBytes.
  rewrite fill_enough by (rewrite length_app; lia).
  rewrite firstn_app, Nat.sub_diag, firstn_all, firstn_O, app_nil_r.
  rewrite skipn_app, Nat.sub_diag, skipn_all. simpl skipn.
  replace (length (bs ++ rest) <? length bs)%nat with false; [reflexivity|].
  symmetry. apply Nat.ltb_ge. rewrite length_app. lia.
Qed.

Lemma ReadShort_cons (b0 b1 : byte) (rest : stream) :
  FieldReader.ReadShort (b0 :: b1 :: rest) = (byteZ b0 + 256 * byteZ b1, rest).
Proof.
  unfold FieldReader.ReadShort, bind, ret.
  pose proof (readBytes_app [b0; b1] rest) as E.
  cbn [length app] in E. rewrite E. simpl fst. now rewrite Uint16_le.
Qed.

Lemma ReadLong_cons (b0 b1 b2 b3 : byte) (rest : stream) :
  FieldReader.ReadLong (b0 :: b1 :: b2 :: b3 :: rest)
  = (byteZ b0 + 256 * byteZ b1 + 65536 * byteZ b2 + 16777216 * byteZ b3, rest).
Proof.
  unfold FieldReader.ReadLong, bind, ret.
  pose proof (readBytes_app [b0; b1; b2; b3] rest) as E.
  cbn [length app] in E. rewrite E. simpl fst. now rewrite Uint32_le.
Qed.

Lemma ReadByte_cons (b : byte) (rest : stream) :
  FieldReader.ReadByte (b :: rest) = (b, rest).
Proof. reflexivity. Qed.

Lemma ReadByteErr_cons (b : byte) (rest : stream) :
  FieldReader.ReadByteErr (b :: rest) = ((b, None), rest).
Proof. reflexivity. Qed.

Lemma ReadBytes_app (bs rest : stream) :
  FieldReader.ReadBytes (length bs) (bs ++ rest) = (bs, rest).
Proof.
  unfold FieldReader.ReadBytes, bind, ret. now rewrite readBytes_app.
Qed.


(** ** The block decoders *)

Ltac read_fields :=
  repeat (rewrite ?ReadShort_cons, ?ReadLong_cons, ?ReadByteErr_cons,
            ?ReadByte_cons; cbv beta iota).

(** The turbo speed routine of package [tape] on a stream that holds its
    sixteen fixed bytes: what each slot receives and where the reader ends. *)
Lemma Process_layout (t : Tape.TurboSpeedData)
      (b0 b1 b2 b3 b4 b5 b6 b7 b8 b9 b10 b11 b12 b13 b14 b15 : byte)
      (rest : stream) :
  Tape.Process t
    (b0 :: b1 :: b2 :: b3 :: b4 :: b5 :: b6 :: b7 :: b8 :: b9 :: b10 :: b11
        :: b12 :: b13 :: b14 :: b15 :: rest)
  = ({| Tape.PilotPulse := byteZ b0 + 256 * byteZ b1;
        Tape.SyncFirstPulse := byteZ b2 + 256 * byteZ b3;
        Tape.SyncSecondPulse := byteZ b4 + 256 * byteZ b5;
        Tape.ZeroBitPulse := byteZ b6 + 256 * byteZ b7;
        Tape.OneBitPulse := Tape.OneBitPulse t;
        Tape.PilotTone := byteZ b8 + 256 * byteZ b9;
        Tape.UsedBits := b10;
        Tape.Pause := byteZ b11 + 256 * byteZ b12;
        Tape.Length := byteZ b13 + 256 * byteZ b14;
        Tape.LengthSpareByte := b15;
        Tape.Data := Tape.Data t |},
     skipn (Z.to_nat (byteZ b13 + 256 * byteZ b14)) rest).
Proof.
  unfold Tape.Process, bind. read_fields.
  unfold FieldReader.ReadBytes, FieldReader.readBytes, bind, ret.
  reflexivity.
Qed.

(** Whatever the stream holds, [Process] leaves the one-bit pulse and the data
    slots as they were. *)
Lemma Process_untouched (t : Tape.TurboSpeedData) (s : stream) :
  Tape.OneBitPulse (fst (Tape.Process t s)) = Tape.OneBitPulse t /\
  Tape.Data (fst (Tape.Process t s)) = Tape.Data t.
Proof.
  unfold Tape.Process, bind, ret.
  repeat match goal with
         | |- context [let (_, _) := ?c ?x in _] => destruct (c x)
         end.
  split; reflexivity.
Qed.

(** The turbo speed routine of package [blocks] on a stream that holds the
    tag, the fixed fields and a 3-byte length: every field is in its slot, the
    length is the value of the three bytes, and then [reader.Read] is asked for
    that many bytes: its error is the one returned and the reader moves on by
    the count it reports. *)
Lemma TurboSpeedData_Read_layout (rd : nat -> stream -> nat * option error)
      (t : Blocks.TurboSpeedData)
      (b0 b1 b2 b3 b4 b5 b6 b7 b8 b9 b10 b11 u p0 p1 n0 n1 n2 : byte)
      (tail : stream) :
  let N := Z.to_nat (byteZ n0 + 256 * byteZ n1 + 65536 * byteZ n2) in
  Blocks.TurboSpeedData_Read rd t
    (x11 :: b0 :: b1 :: b2 :: b3 :: b4 :: b5 :: b6 :: b7 :: b8 :: b9 :: b10
         :: b11 :: u :: p0 :: p1 :: n0 :: n1 :: n2 :: tail)
  = (({| Blocks.BlockID := x11;
         Blocks.PilotPulse := byteZ b0 + 256 * byteZ b1;
         Blocks.SyncFirstPulse := byteZ b2 + 256 * byteZ b3;
         Blocks.SyncSecondPulse := byteZ b4 + 256 * byteZ b5;
         Blocks.ZeroBitPulse := byteZ b6 + 256 * byteZ b7;
         Blocks.OneBitPulse := byteZ b8 + 256 * byteZ b9;
         Blocks.PilotTone := byteZ b10 + 256 * byteZ b11;
         Blocks.UsedBits := u;
         Blocks.Pause := byteZ p0 + 256 * byteZ p1;
         Blocks.Length := byteZ n0 + 256 * byteZ n1 + 65536 * byteZ n2;
         Blocks.DataBlock := Blocks.DataBlock t |},
      snd (rd N tail)),
     skipn (Nat.min (fst (rd N tail)) N) tail).
Proof.
  intros N.
  unfold Blocks.TurboSpeedData_Read, bind. read_fields.
  change (negb (Byte.eqb x11 Blocks.TurboSpeedData_Id)) with false.
  cbv beta iota. read_fields.
  pose proof (ReadBytes_app [n0; n1; n2] tail) as E.
  cbn [length app] in E. rewrite E. cbv beta iota zeta.
  assert (L : FieldReader.BytesToLong ([n0; n1; n2] ++ [x00])
              = byteZ n0 + 256 * byteZ n1 + 65536 * byteZ n2).
  { unfold FieldReader.BytesToLong. cbn [app]. rewrite Uint32_le.
    change (byteZ x00) with 0. lia. }
  rewrite L. fold N. unfold FieldReader.Read, ret.
  destruct (rd N tail) as [k err]. reflexivity.
Qed.

Lemma fill_3 (s : stream) :
  exists n0 n1 n2, FieldReader.fill 3 s = [n0; n1; n2].
Proof.
  destruct s as [| a [| b [| c s]]]; cbn; eauto.
Qed.

(** The 3-byte length of package [blocks]: the three bytes and a zero fourth,
    little-endian, so a value below 2^24. *)
Lemma BytesToLong_3 (n0 n1 n2 : byte) :
  FieldReader.BytesToLong ([n0; n1; n2] ++ [x00])
  = byteZ n0 + 256 * byteZ n1 + 65536 * byteZ n2
  /\ 0 <= FieldReader.BytesToLong ([n0; n1; n2] ++ [x00]) < 2 ^ 24.
Proof.
  assert (L : FieldReader.BytesToLong ([n0; n1; n2] ++ [x00])
              = byteZ n0 + 256 * byteZ n1 + 65536 * byteZ n2).
  { unfold FieldReader.BytesToLong. cbn [app]. rewrite Uint32_le.
    change (byteZ x00) with 0. lia. }
  rewrite L. split; [reflexivity|].
  pose proof (byteZ_range n0). pose proof (byteZ_range n1).
  pose proof (byteZ_range n2). change (2 ^ 24) with 16777216. lia.
Qed.

(** Whatever the stream holds and whatever [reader.Read] reports, the routine
    of package [blocks] leaves the data block as it was, and a length below
    2^24 stays below 2^24. *)
Lemma TurboSpeedData_Read_result (rd : nat -> stream -> nat * option error)
      (t : Blocks.TurboSpeedData) (s : stream) :
  exists t' err s',
    Blocks.TurboSpeedData_Read rd t s = ((t', err), s')
    /\ Blocks.DataBlock t' = Blocks.DataBlock t
    /\ (0 <= Blocks.Length t < 2 ^ 24 -> 0 <= Blocks.Length t' < 2 ^ 24).
Proof.
  unfold Blocks.TurboSpeedData_Read, bind.
  destruct (FieldReader.ReadByte s) as [blockID s0].
  destruct (negb (Byte.eqb blockID Blocks.TurboSpeedData_Id)).
  { do 3 eexists. split; [reflexivity|]. cbn. split; [reflexivity | tauto]. }
  repeat match goal with
         | |- context [let (_, _) := FieldReader.ReadShort ?x in _] =>
             destruct (FieldReader.ReadShort x)
         | |- context [let (_, _) := FieldReader.ReadByte ?x in _] =>
             destruct (FieldReader.ReadByte x)
         end.
  unfold FieldReader.ReadBytes, bind, FieldReader.readBytes, ret.
  cbv beta iota zeta.
  match goal with
  | |- context [FieldReader.fill 3 ?x] =>
      destruct (fill_3 x) as (n0 & n1 & n2 & ->)
  end.
  match goal with
  | |- context [let (_, _) := FieldReader.Read rd ?n ?x in _] =>
      destruct (FieldReader.Read rd n x)
  end.
  do 3 eexists. split; [reflexivity|].
  cbn [fst snd Blocks.Length Blocks.DataBlock].
  split; [reflexivity | intros _; apply BytesToLong_3].
Qed.

(** C2 (code bug).  The turbo speed block is six 16-bit pulse fields, used
    bits, pause, a 3-byte length and the data; [Process] reads five 16-bit
    fields before the used bits.  On a block that holds pilot 2168, sync 667
    and 735, zero bit 855, one bit 1710, pilot tone 8063, used bits 8, pause 4,
    length 2 and the data AA BB, the one-bit slot stays 0, the pilot tone slot
    receives the one-bit field, and every later slot receives bytes of the
    field before it. *)
Theorem Process_skips_one_bit_pulse :
  Tape.Process Tape.zero (turboBody [x04; x00] [x02; x00; x00] [xaa; xbb])
  = ({| Tape.PilotPulse := 2168;
        Tape.SyncFirstPulse := 667;
        Tape.SyncSecondPulse := 735;
        Tape.ZeroBitPulse := 855;
        Tape.OneBitPulse := 0;
        Tape.PilotTone := 1710;
        Tape.UsedBits := x7f;
        Tape.Pause := 2079;
        Tape.Length := 4;
        Tape.LengthSpareByte := x02;
        Tape.Data := [] |},
     []).
Proof. vm_compute. reflexivity. Qed.

(** C6 (code bug).  The length [Process] acts on is the 16-bit value of the
    first two length bytes; the third goes to the spare slot.  On FF FF FF the
    length is 65535, not 0xFFFFFF, and 65535 bytes are then passed over; on
    10 00 00 it is 16. *)
Theorem Process_length_is_two_bytes (rest : stream) :
  (let res := Tape.Process Tape.zero (repeat x00 13 ++ [xff; xff; xff] ++ rest) in
   Tape.Length (fst res) = 65535 /\
   Tape.LengthSpareByte (fst res) = xff /\
   snd res = skipn (Z.to_nat 65535) rest) /\
  (let res := Tape.Process Tape.zero (repeat x00 13 ++ [x10; x00; x00] ++ rest) in
   Tape.Length (fst res) = 16 /\
   Tape.LengthSpareByte (fst res) = x00 /\
   snd res = skipn (Z.to_nat 16) rest).
Proof.
  cbn [repeat app]. rewrite !Process_layout. cbn [fst snd Tape.Length
    Tape.LengthSpareByte].
  repeat split.
Qed.

(** C7 (amended).  The two extension-rule routines read the 4-byte length,
    little-endian, into the record and then a fixed body, whatever the length
    says: no byte more for StopTapeWhen48kMode (2Ah), the one signal level
    byte for SetSignalLevel (2Bh). *)
Theorem extension_blocks_read_fixed_body (b0 b1 b2 b3 : byte) (rest : stream) :
  (forall t,
      Blocks.StopTapeWhen48kMode_Read t (b0 :: b1 :: b2 :: b3 :: rest)
      = ({| Blocks.stLength :=
              byteZ b0 + 256 * byteZ b1 + 65536 * byteZ b2
              + 16777216 * byteZ b3 |},
         rest)) /\
  (forall t level,
      SetSignalLevel.Process t (b0 :: b1 :: b2 :: b3 :: level :: rest)
      = ({| SetSignalLevel.Length :=
              byteZ b0 + 256 * byteZ b1 + 65536 * byteZ b2
              + 16777216 * byteZ b3;
            SetSignalLevel.SignalLevel := level |},
         rest)).
Proof.
  split; intros.
  - unfold Blocks.StopTapeWhen48kMode_Read, bind. read_fields. reflexivity.
  - unfold SetSignalLevel.Process, bind. read_fields. reflexivity.
Qed.

(** A StopTapeWhen48kMode block that declares a length of 5: the routine
    stores the 5 and leaves the five bytes that follow unread. *)
Lemma StopTapeWhen48kMode_leaves_declared_bytes :
  Blocks.StopTapeWhen48kMode_Read (Blocks.mkStopTapeWhen48kMode 0)
    [x05; x00; x00; x00; x01; x02; x03; x04; x05]
  = ({| Blocks.stLength := 5 |}, [x01; x02; x03; x04; x05])
  /\ snd (Blocks.StopTapeWhen48kMode_Read (Blocks.mkStopTapeWhen48kMode 0)
            [x05; x00; x00; x00; x01; x02; x03; x04; x05])
     <> skipn (4 + 5) [x05; x00; x00; x00; x01; x02; x03; x04; x05].
Proof. split; [vm_compute; reflexivity | vm_compute; discriminate]. Qed.

(** ** The header *)

Lemma bytes_eqb_eq (a b : list byte) : bytes_eqb a b = true <-> a = b.
Proof.
  revert b. induction a as [| x a IH]; destruct b as [| y b]; simpl;
    try (split; (reflexivity || discriminate)).
  rewrite andb_true_iff, IH. split.
  - intros [H ->]. apply Byte.byte_dec_bl in H. now subst.
  - intros [= -> ->]. split; [now apply Byte.byte_dec_lb | reflexivity].
Qed.

(** [valid] returns nil for every header: each [Wrapf] is handed the nil
    the variable starts with. *)
Lemma valid_accepts (h : header) :
  valid h
  = (None,
     if (byteZ (MajorVersion h) =? 1) && (byteZ (MinorVersion h) <? 20)
     then [VersionWarning (MajorVersion h) (MinorVersion h)] else []).
Proof.
  unfold valid, supportedMajorVersion, supportedMinorVersion.
  destruct (bytes_eqb (Signature h) ZXTape); destruct (Byte.eqb (Terminator h) x1a);
    destruct (byteZ (MajorVersion h) =? 1);
    destruct (byteZ (MinorVersion h) <? 20); reflexivity.
Qed.

(** ** Routines only move the reader forward *)

Create HintDb forward.

Lemma forward_ret {A} (a : A) : forward (ret a).
Proof. intros s. simpl. lia. Qed.

Lemma forward_bind {A B} (c : M A) (k : A -> M B) :
  forward c -> (forall a, forward (k a)) -> forward (bind c k).
Proof.
  intros Hc Hk s. unfold bind.
  specialize (Hc s). destruct (c s) as [a s']. simpl in Hc.
  specialize (Hk a s'). lia.
Qed.

Lemma forward_readBytes (n : nat) : forward (FieldReader.readBytes n).
Proof. intros s. unfold FieldReader.readBytes. simpl. rewrite length_skipn. lia. Qed.

Lemma forward_advance {A} (f : stream -> A * nat) : forward (advance f).
Proof.
  intros s. unfold advance. destruct (f s) as [a n]. simpl.
  rewrite length_skipn. lia.
Qed.

#[local] Hint Resolve forward_ret forward_readBytes forward_advance : forward.

Ltac forward_steps :=
  repeat first
    [ apply forward_ret | apply forward_readBytes | apply forward_advance
    | apply forward_bind; [| intros ?] ].

Lemma forward_ReadByte : forward FieldReader.ReadByte.
Proof. unfold FieldReader.ReadByte. forward_steps. Qed.

Lemma forward_ReadByteErr : forward FieldReader.ReadByteErr.
Proof. unfold FieldReader.ReadByteErr. forward_steps. Qed.

Lemma forward_ReadShort : forward FieldReader.ReadShort.
Proof. unfold FieldReader.ReadShort. forward_steps. Qed.

Lemma forward_ReadLong : forward FieldReader.ReadLong.
Proof. unfold FieldReader.ReadLong. forward_steps. Qed.

Lemma forward_ReadBytes (n : nat) : forward (FieldReader.ReadBytes n).
Proof. unfold FieldReader.ReadBytes. forward_steps. Qed.

#[local] Hint Resolve forward_ReadByte forward_ReadByteErr forward_ReadShort
  forward_ReadLong forward_ReadBytes : forward.

Ltac forward_block :=
  repeat first
    [ apply forward_bind; [| intros ?] | solve [auto with forward] ].

Lemma forward_Process (t : Tape.TurboSpeedData) : forward (Tape.Process t).
Proof. unfold Tape.Process. forward_block. Qed.

Lemma forward_SetSignalLevel (t : SetSignalLevel.t) :
  forward (SetSignalLevel.Process t).
Proof. unfold SetSignalLevel.Process. forward_block. Qed.

Lemma forward_StopTapeWhen48kMode (t : Blocks.StopTapeWhen48kMode) :
  forward (Blocks.StopTapeWhen48kMode_Read t).
Proof. unfold Blocks.StopTapeWhen48kMode_Read. forward_block. Qed.

Lemma forward_GroupStart (g : Blocks.GroupStart) :
  forward (Blocks.GroupStart_Read g).
Proof.
  unfold Blocks.GroupStart_Read, FieldReader.ReadNextBytes. forward_block.
Qed.

Lemma forward_LoopStart (l : Blocks.LoopStart) :
  forward (Blocks.LoopStart_Read l).
Proof. unfold Blocks.LoopStart_Read. forward_block. Qed.

#[local] Hint Resolve forward_Process forward_SetSignalLevel
  forward_StopTapeWhen48kMode forward_GroupStart forward_LoopStart : forward.

Section ContainerFacts.

Context {lib : BlockLibrary}.

Lemma forward_readDataBlock (id : byte) : forward (readDataBlock id).
Proof.
  unfold readDataBlock.
  destruct (readDataBlock_switch id) as [block | early]; [| apply forward_ret].
  apply forward_bind; [| intros ?; apply forward_ret].
  destruct block; unfold Block_Read, Blocks.GroupEnd_Read,
    Blocks.LoopEnd_Read; forward_block.
Qed.

(** *** The dispatcher *)

Lemma switch_known (id : byte) :
  In id known_tags ->
  id = x32 \/ exists block, readDataBlock_switch id = inl block.
Proof.
  destruct id; simpl; intros H;
    solve [ right; eexists; reflexivity
          | left; reflexivity
          | exfalso; intuition discriminate ].
Qed.

Lemma switch_unknown (id : byte) :
  ~ In id known_tags ->
  readDataBlock_switch id = inr (None, Some (UnsupportedBlockID id)).
Proof.
  destruct id; intros H; try reflexivity; exfalso; apply H; simpl;
    repeat first [ left; reflexivity | right ].
Qed.

Lemma switch_block_Id (id : byte) (block : Block) :
  readDataBlock_switch id = inl block -> Block_Id block = id /\ id <> x32.
Proof.
  destruct id; simpl; intros [= <-]; split; (reflexivity || discriminate).
Qed.

Lemma switch_early (id : byte) (block : option Block) (err : option error) :
  readDataBlock_switch id = inr (block, err) ->
  block = None /\
  (err = None /\ id = x32 \/
   err = Some (UnsupportedBlockID id) /\ ~ In id known_tags).
Proof.
  destruct id; simpl; intros [= <- <-]; split; try reflexivity;
    solve [ left; split; reflexivity
          | right; split; [reflexivity | intuition discriminate] ].
Qed.

Lemma Block_Read_Id (block : Block) (s : stream) :
  Block_Id (fst (Block_Read block s)) = Block_Id block.
Proof.
  destruct block; unfold Block_Read, bind, ret;
    match goal with
    | |- context [let (_, _) := ?c s in _] => destruct (c s)
    end; reflexivity.
Qed.

(** [readDataBlock] fails on the tags it has no case for, and only there:
    [block.Read] hands no error back, whatever it met in the stream. *)
Lemma readDataBlock_error (id : byte) (s : stream) :
  snd (fst (readDataBlock id s))
  = if in_dec Byte.byte_eq_dec id known_tags then None
    else Some (UnsupportedBlockID id).
Proof.
  unfold readDataBlock.
  destruct (in_dec Byte.byte_eq_dec id known_tags) as [Hin | Hout].
  - destruct (switch_known id Hin) as [-> | [block ->]]; [reflexivity|].
    unfold bind, ret. now destruct (Block_Read block s).
  - now rewrite (switch_unknown id Hout).
Qed.

Lemma readDataBlock_unsupported (id : byte) (s : stream) :
  ~ In id known_tags ->
  readDataBlock id s = ((None, Some (UnsupportedBlockID id)), s).
Proof.
  intros H. unfold readDataBlock. now rewrite (switch_unknown id H).
Qed.

(** What one turn of the loop does, by the tag it reads. *)
Lemma body_eof (r : Reader) :
  reader r = [] ->
  ReadBlocks_body r = Return None (mkReader [] (hdr r) (archive r) (blocks r)).
Proof. intros E. unfold ReadBlocks_body. now rewrite E. Qed.

Lemma body_unsupported (r : Reader) (id : byte) (s : stream) :
  reader r = id :: s -> ~ In id known_tags ->
  ReadBlocks_body r
  = Return (Some (Wrapped (UnsupportedBlockID id)
                          "Unable to complete reading TZX blocks"))
           (mkReader s (hdr r) (archive r) (blocks r)).
Proof.
  intros E H. unfold ReadBlocks_body. rewrite E. simpl.
  now rewrite (readDataBlock_unsupported id s H).
Qed.

Lemma body_archive (r : Reader) (s : stream) :
  reader r = x32 :: s ->
  ReadBlocks_body r
  = Continue (mkReader (snd (advance (ArchiveInfo_Read ArchiveInfo_zero) s))
                       (hdr r)
                       (fst (ArchiveInfo_Read ArchiveInfo_zero s))
                       (blocks r)).
Proof.
  intros E. unfold ReadBlocks_body. rewrite E. simpl.
  unfold advance. now destruct (ArchiveInfo_Read ArchiveInfo_zero s).
Qed.

Lemma body_block (r : Reader) (id : byte) (s : stream) (block : Block) :
  reader r = id :: s -> readDataBlock_switch id = inl block ->
  ReadBlocks_body r
  = Continue (mkReader (snd (Block_Read block s)) (hdr r) (archive r)
                       (blocks r ++ [Some (fst (Block_Read block s))])).
Proof.
  intros E Hsw. destruct (switch_block_Id id block Hsw) as [_ Hne].
  unfold ReadBlocks_body. rewrite E. simpl.
  unfold readDataBlock. rewrite Hsw. unfold bind, ret.
  destruct (Block_Read block s) as [b' s']. simpl.
  destruct (Byte.eqb id x32) eqn:Eq; [|reflexivity].
  apply Byte.byte_dec_bl in Eq. contradiction.
Qed.

(** The three ways a turn can go. *)
Lemma body_cases (r : Reader) :
  (reader r = [] /\
   ReadBlocks_body r = Return None (mkReader [] (hdr r) (archive r) (blocks r)))
  \/ (exists id s, reader r = id :: s /\ ~ In id known_tags /\
      ReadBlocks_body r
      = Return (Some (Wrapped (UnsupportedBlockID id)
                              "Unable to complete reading TZX blocks"))
               (mkReader s (hdr r) (archive r) (blocks r)))
  \/ (exists s, reader r = x32 :: s /\
      ReadBlocks_body r
      = Continue (mkReader (snd (advance (ArchiveInfo_Read ArchiveInfo_zero) s))
                           (hdr r)
                           (fst (ArchiveInfo_Read ArchiveInfo_zero s))
                           (blocks r)))
  \/ (exists id s block, reader r = id :: s /\ id <> x32 /\
      Block_Id (fst (Block_Read block s)) = id /\
      ReadBlocks_body r
      = Continue (mkReader (snd (Block_Read block s)) (hdr r) (archive r)
                           (blocks r ++ [Some (fst (Block_Read block s))]))).
Proof.
  destruct (reader r) as [| id s] eqn:E.
  - left. split; [reflexivity | now apply body_eof].
  - right. destruct (readDataBlock_switch id) as [block | [ob err]] eqn:Hsw.
    + right. right. exists id, s, block.
      destruct (switch_block_Id id block Hsw) as [HId Hne].
      repeat split; try assumption.
      * now rewrite Block_Read_Id.
      * now apply (body_block r id s block).
    + destruct (switch_early id ob err Hsw) as [_ [[_ ->] | [_ Hout]]].
      * right. left. exists s. split; [reflexivity | now apply (body_archive r s)].
      * left. exists id, s. repeat split; try assumption.
        now apply (body_unsupported r id s).
Qed.

(** *** The loop ends *)

Lemma body_shorter (r r' : Reader) :
  ReadBlocks_body r = Continue r' ->
  (length (reader r') < length (reader r))%nat.
Proof.
  destruct (body_cases r) as [[_ ->] | [(id & s & _ & _ & ->) |
    [(s & E & ->) | (id & s & block & E & _ & _ & ->)]]];
    try discriminate; intros [= <-]; rewrite E; simpl.
  - pose proof (forward_advance (ArchiveInfo_Read ArchiveInfo_zero) s). lia.
  - pose proof (forward_readDataBlock id s) as F.
    assert (G : forward (Block_Read block)).
    { destruct block; unfold Block_Read, Blocks.GroupEnd_Read,
        Blocks.LoopEnd_Read; forward_block. }
    specialize (G s). lia.
Qed.

Lemma ReadBlocks_loop_total (fuel : nat) :
  forall r, (length (reader r) < fuel)%nat ->
            exists res, ReadBlocks_loop fuel r = Some res.
Proof.
  induction fuel as [| fuel IH]; intros r H; [lia|].
  simpl. destruct (ReadBlocks_body r) as [r' | err r'] eqn:E.
  - apply IH. apply body_shorter in E. lia.
  - eauto.
Qed.

Lemma ReadBlocks_loop_more (fuel : nat) :
  forall r res, ReadBlocks_loop fuel r = Some res ->
  forall fuel', (fuel <= fuel')%nat -> ReadBlocks_loop fuel' r = Some res.
Proof.
  induction fuel as [| fuel IH]; intros r res H fuel' Hle; [discriminate|].
  destruct fuel' as [| fuel']; [lia|].
  simpl in *. destruct (ReadBlocks_body r); [|assumption].
  apply IH with (1 := H). lia.
Qed.

(** [ReadBlocks] always returns. *)
Lemma ReadBlocks_total (r : Reader) :
  exists err r', ReadBlocks r = Some (err, r').
Proof.
  destruct (ReadBlocks_loop_total (S (length (reader r))) r) as [[err r'] H];
    [lia | eauto].
Qed.

Lemma ReadBlocks_continue (r r' : Reader) :
  ReadBlocks_body r = Continue r' -> ReadBlocks r = ReadBlocks r'.
Proof.
  intros E. pose proof (body_shorter r r' E) as Hlt.
  destruct (ReadBlocks_total r') as (err & r'' & H). rewrite H.
  unfold ReadBlocks in *. simpl. rewrite E.
  apply ReadBlocks_loop_more with (1 := H). lia.
Qed.

Lemma ReadBlocks_return (r r' : Reader) (err : option error) :
  ReadBlocks_body r = Return err r' -> ReadBlocks r = Some (err, r').
Proof. intros E. unfold ReadBlocks. simpl. now rewrite E. Qed.

Lemma tags_read_more (fuel : nat) :
  forall r, (length (reader r) < fuel)%nat ->
  forall fuel', (fuel <= fuel')%nat -> tags_read fuel' r = tags_read fuel r.
Proof.
  induction fuel as [| fuel IH]; intros r H fuel' Hle; [lia|].
  destruct fuel' as [| fuel']; [lia|].
  simpl. destruct (ReadBlocks_body r) as [r' | err r'] eqn:E; [|reflexivity].
  destruct (reader r) as [| id s] eqn:Er; [reflexivity|].
  f_equal. apply IH; [|lia].
  apply body_shorter in E. rewrite Er in E. simpl in E, H. lia.
Qed.

Lemma tags_read_S (fuel : nat) (r : Reader) :
  tags_read (S fuel) r
  = match ReadBlocks_body r, reader r with
    | Continue r', id :: s1 => (id, s1) :: tags_read fuel r'
    | _, _ => []
    end.
Proof. reflexivity. Qed.

Lemma ReadBlocks_tags_continue (r r' : Reader) (id : byte) (s : stream) :
  ReadBlocks_body r = Continue r' -> reader r = id :: s ->
  ReadBlocks_tags r = (id, s) :: ReadBlocks_tags r'.
Proof.
  intros E Er. unfold ReadBlocks_tags.
  rewrite tags_read_S, E, Er. f_equal.
  apply body_shorter in E. rewrite <- Er.
  apply tags_read_more; lia.
Qed.

Lemma ReadBlocks_tags_return (r r' : Reader) (err : option error) :
  ReadBlocks_body r = Return err r' -> ReadBlocks_tags r = [].
Proof. intros E. unfold ReadBlocks_tags. simpl. now rewrite E. Qed.

(** Induction on the turns of the loop: [P] holds of a call that returns at
    once, and passes from the rest of a run to the run. *)
Lemma ReadBlocks_turns_ind (P : Reader -> Prop) :
  (forall r err r', ReadBlocks_body r = Return err r' -> P r) ->
  (forall r r', ReadBlocks_body r = Continue r' -> P r' -> P r) ->
  forall r, P r.
Proof.
  intros Hret Hcont r.
  remember (length (reader r)) as n eqn:Hn.
  revert r Hn. induction n as [n IH] using lt_wf_ind. intros r Hn.
  destruct (ReadBlocks_body r) as [r' | err r'] eqn:E.
  - apply (Hcont r r' E). apply (IH (length (reader r'))); [|reflexivity].
    apply body_shorter in E. lia.
  - apply (Hret r err r' E).
Qed.

(** *** Opening a tape *)

(** [NewReader] on a stream that starts with the signature: it returns a
    reader, whatever the three bytes after the signature are. *)
Lemma NewReader_signature (term major minor : byte) (rest : stream) :
  NewReader (ZXTape ++ term :: major :: minor :: rest)
  = ((Some (mkReader rest (mkheader ZXTape term major minor)
                     ArchiveInfo_zero []),
      None),
     if (byteZ major =? 1) && (byteZ minor <? 20)
     then [VersionWarning major minor] else []).
Proof.
  unfold NewReader, readHeader, bind, binary_Read_header. simpl.
  now rewrite valid_accepts.
Qed.

(** [NewReader] returns a reader exactly when the stream holds ten bytes
    that start with the signature. *)
Lemma NewReader_succeeds_iff (s : stream) :
  (exists r, fst (fst (NewReader s)) = Some r)
  <-> (10 <= length s)%nat /\ firstn 7 s = ZXTape.
Proof.
  unfold NewReader, readHeader, bind, binary_Read_header.
  destruct s as [| b s].
  - simpl. split; [intros [r H]; discriminate | intros [H _]; lia].
  - destruct (length (b :: s) <? 10)%nat eqn:Hlen;
      cbv beta iota zeta; cbn [snd fst ret Signature].
    + apply Nat.ltb_lt in Hlen.
      split; [intros [r H]; discriminate | intros [H _]; lia].
    + apply Nat.ltb_ge in Hlen.
      destruct (bytes_eqb (firstn 7 (b :: s)) ZXTape) eqn:Hsig;
        cbn [negb ret].
      * apply bytes_eqb_eq in Hsig. rewrite valid_accepts.
        cbn [fst]. split; [intros _; now split | intros _; eauto].
      * split; [intros [r H]; discriminate |].
        intros [_ H]. apply bytes_eqb_eq in H. congruence.
Qed.

(** C1 (code bug).  A header with the signature, terminator 00h and version
    2.0 is accepted: [NewReader] returns a reader and no error, and nothing
    is printed. *)
Theorem NewReader_accepts_wrong_terminator_and_version :
  NewReader (ZXTape ++ [x00; x02; x00])
  = ((Some (mkReader [] (mkheader ZXTape x00 x02 x00) ArchiveInfo_zero []),
      None),
     []).
Proof. reflexivity. Qed.

(** *** What a run of the loop leaves in the reader *)

Lemma body_return_keeps (r r' : Reader) (err : option error) :
  ReadBlocks_body r = Return err r' ->
  blocks r' = blocks r /\ archive r' = archive r.
Proof.
  destruct (body_cases r) as [[_ ->] | [(id & s & _ & _ & ->) |
    [(s & _ & ->) | (id & s & block & _ & _ & _ & ->)]]];
    intros [= <- <-] || discriminate; split; reflexivity.
Qed.

(** The blocks a call finds in the reader stay at the front of the list. *)
Lemma ReadBlocks_appends (r : Reader) :
  match ReadBlocks r with
  | Some (_, r') => exists added, blocks r' = blocks r ++ added
  | None => False
  end.
Proof.
  pattern r. apply ReadBlocks_turns_ind; clear r.
  - intros r err r' E. rewrite (ReadBlocks_return _ _ _ E).
    exists []. rewrite app_nil_r. apply (body_return_keeps _ _ _ E).
  - intros r r1 E IH. rewrite (ReadBlocks_continue _ _ E).
    destruct (ReadBlocks r1) as [[err r'] |]; [| contradiction].
    destruct IH as [added Hb]. rewrite Hb.
    destruct (body_cases r) as [[_ E'] | [(id & s & _ & _ & E') |
      [(s & _ & E') | (id & s & block & _ & _ & _ & E')]]];
      rewrite E' in E; try discriminate; injection E as <-; simpl.
    + now exists added.
    + rewrite <- app_assoc. eauto.
Qed.

(** C4 (code bug).  A tape whose turbo speed block declares 100 data bytes
    and ends after 50 of them: [ReadBlocks] returns nil, and the block it
    could not read in full is in the list.  The same for a group start block
    (21h) that declares a name of 100 bytes and ends after 50. *)
Theorem truncated_turbo_block_is_kept :
  (exists r block,
      decode (validHeader x14 ++ x11
                :: turboBody [xe8; x03] [x64; x00; x00] (repeat x00 50))
      = Some (None, Some r)
      /\ blocks r = [Some (TurboSpeedData block)]
      /\ reader r = [])
  /\
  (exists r block,
      decode (validHeader x14 ++ x21 :: x64 :: repeat x41 50)
      = Some (None, Some r)
      /\ blocks r = [Some (GroupStart block)]
      /\ reader r = []).
Proof.
  split; eexists; eexists; vm_compute; repeat split.
Qed.

(** A block whose read runs to the end of the input, as every read that
    asks for more than is left does, is appended and the call returns nil. *)
Lemma block_at_end_of_input (r : Reader) (id : byte) (s : stream) (block : Block) :
  reader r = id :: s -> readDataBlock_switch id = inl block ->
  snd (Block_Read block s) = [] ->
  ReadBlocks r
  = Some (None, mkReader [] (hdr r) (archive r)
                         (blocks r ++ [Some (fst (Block_Read block s))])).
Proof.
  intros Er Hsw Hend.
  rewrite (ReadBlocks_continue _ _ (body_block r id s block Er Hsw)).
  rewrite Hend. apply ReadBlocks_return. now apply body_eof.
Qed.

(** C5.  On a tag [readDataBlock] has no case for, it fails with the
    unsupported-ID error and has read nothing; [ReadBlocks] returns that
    error, wrapped, on the same turn, and the block list and the archive
    are as they were. *)
Theorem unsupported_tag_aborts (r : Reader) (id : byte) (s : stream) :
  reader r = id :: s -> ~ In id known_tags ->
  readDataBlock id s = ((None, Some (UnsupportedBlockID id)), s) /\
  ReadBlocks r
  = Some (Some (Wrapped (UnsupportedBlockID id)
                        "Unable to complete reading TZX blocks"),
          mkReader s (hdr r) (archive r) (blocks r)).
Proof.
  intros Er Hout. split.
  - now apply readDataBlock_unsupported.
  - apply ReadBlocks_return. now apply body_unsupported.
Qed.

Lemma eqb_x32_false (id : byte) : id <> x32 -> Byte.eqb id x32 = false.
Proof.
  intros H. destruct (Byte.eqb id x32) eqn:E; [| reflexivity].
  apply Byte.byte_dec_bl in E. contradiction.
Qed.

(** C8.  A turn that reads the tag 32h leaves the block list as it is and
    stores the decode of what follows in the archive field.  Over a whole
    call, the blocks [ReadBlocks] appends are, in order, one for each tag
    read other than 32h: none of them is nil and none has the archive info
    ID, wherever in the stream the 32h tags stand. *)
Theorem archive_info_never_in_blocks (r : Reader) (s : stream) :
  ReadBlocks (mkReader (x32 :: s) (hdr r) (archive r) (blocks r))
  = ReadBlocks (mkReader (snd (advance (ArchiveInfo_Read ArchiveInfo_zero) s))
                         (hdr r)
                         (fst (ArchiveInfo_Read ArchiveInfo_zero s))
                         (blocks r))
  /\
  match ReadBlocks r with
  | Some (_, r') =>
      exists added,
        blocks r' = blocks r ++ map Some added /\
        map Block_Id added
        = filter (fun id => negb (Byte.eqb id x32))
                 (map fst (ReadBlocks_tags r)) /\
        Forall (fun b => Block_Id b <> x32) added
  | None => False
  end.
Proof.
  split.
  { apply ReadBlocks_continue.
    apply (body_archive (mkReader (x32 :: s) (hdr r) (archive r) (blocks r))
                        s eq_refl). }
  clear s. pattern r. apply ReadBlocks_turns_ind; clear r.
  - intros r err r' E.
    rewrite (ReadBlocks_return _ _ _ E), (ReadBlocks_tags_return _ _ _ E).
    exists []. simpl. rewrite app_nil_r.
    repeat split; [apply (body_return_keeps _ _ _ E) | constructor].
  - intros r r1 E IH. rewrite (ReadBlocks_continue _ _ E).
    destruct (ReadBlocks r1) as [[err r'] |]; [| contradiction].
    destruct IH as (added & Hb & Hid & Hall). rewrite Hb.
    destruct (body_cases r) as [[_ E'] | [(id & s & _ & _ & E') |
      [(s & Er & E') | (id & s & block & Er & Hne & HId & E')]]];
      rewrite E' in E; try discriminate;
      rewrite (ReadBlocks_tags_continue _ _ _ _ E' Er);
      injection E as <-; simpl.
    + exists added. now repeat split.
    + exists (fst (Block_Read block s) :: added).
      rewrite (eqb_x32_false id Hne). simpl.
      rewrite <- app_assoc, HId, <- Hid. repeat split.
      constructor; [congruence | assumption].
Qed.

(** C9.  A valid header, one loop-end tag (25h) and the end of the input:
    the tape opens, [ReadBlocks] returns nil at the end of the input, and the
    block list is the one loop-end record; the same with a group-end tag
    (22h).  Neither [Read] moves the reader. *)
Theorem no_body_block_tape_decodes (minor : byte) :
  decode (validHeader minor ++ [x25])
  = Some (None,
          Some (mkReader [] (mkheader ZXTape x1a x01 minor) ArchiveInfo_zero
                         [Some LoopEnd])) /\
  decode (validHeader minor ++ [x22])
  = Some (None,
          Some (mkReader [] (mkheader ZXTape x1a x01 minor) ArchiveInfo_zero
                         [Some GroupEnd])) /\
  (forall s, Blocks.LoopEnd_Read s = (tt, s)) /\
  (forall s, Blocks.GroupEnd_Read s = (tt, s)).
Proof.
  unfold decode, validHeader.
  repeat split;
    rewrite <- app_assoc; cbn [app]; rewrite NewReader_signature;
    reflexivity.
Qed.

(** *** The archive info block *)

(** C10.  On a tape that holds archive info blocks (32h) among blocks the
    switch has a case for, however many and wherever, [ReadBlocks] reads to
    the end and returns nil, and the archive field then holds the decode, from
    the zero value, of the bytes after the last 32h tag: what the field held
    before and what the earlier 32h blocks decoded to have no part in it.
    On a tape with no 32h tag the field is as it was. *)
Theorem archive_holds_last_archive_info (s : stream) (last : option stream)
        (h : header) (a : ArchiveInfo) (bl : list (option Block)) :
  ArchiveTape s last ->
  exists bl',
    ReadBlocks (mkReader s h a bl)
    = Some (None,
            mkReader [] h
                     match last with
                     | Some p => fst (ArchiveInfo_Read ArchiveInfo_zero p)
                     | None => a
                     end
                     bl').
Proof.
  intros H. revert h a bl.
  induction H as [| id block s last Hsw _ IH | s last _ IH]; intros h a bl.
  - exists bl. apply ReadBlocks_return.
    apply (body_eof (mkReader [] h a bl) eq_refl).
  - rewrite (ReadBlocks_continue _ _
               (body_block (mkReader (id :: s) h a bl) id s block eq_refl Hsw)).
    apply IH.
  - rewrite (ReadBlocks_continue _ _
               (body_archive (mkReader (x32 :: s) h a bl) s eq_refl)).
    destruct (IH h (fst (ArchiveInfo_Read ArchiveInfo_zero s)) bl) as [bl' E].
    exists bl'. cbn [hdr archive blocks]. rewrite E. now destruct last.
Qed.

(** *** The turbo speed block in a tape *)

(** C3 (amended).  For a valid header followed by a turbo speed block, the
    first record of the block list is the turbo speed record [Process]
    decodes, and its data slot is empty: no data byte is kept, whatever the
    block declares and whatever follows.  The routine of package [blocks]
    keeps none either: on every stream, and whatever [reader.Read] reports,
    the record it fills from the zero value has a nil data block. *)
Theorem turbo_payload_discarded (minor : byte) (body : stream) :
  (exists err r more,
      decode (validHeader minor ++ x11 :: body) = Some (err, Some r) /\
      blocks r
      = Some (TurboSpeedData (fst (Tape.Process Tape.zero body))) :: more /\
      Tape.Data (fst (Tape.Process Tape.zero body)) = [])
  /\
  (forall rd s,
      Blocks.DataBlock
        (fst (fst (Blocks.TurboSpeedData_Read rd Blocks.TurboSpeedData_zero s)))
      = None).
Proof.
  split.
  - unfold decode, validHeader.
    rewrite <- app_assoc. cbn [app]. rewrite NewReader_signature.
    set (r0 := mkReader (x11 :: body) _ _ _).
    pose proof (body_block r0 x11 body (TurboSpeedData Tape.zero)
                           eq_refl eq_refl) as E.
    rewrite (ReadBlocks_continue _ _ E).
    match goal with |- context [ReadBlocks ?x] =>
      pose proof (ReadBlocks_appends x) as H;
      destruct (ReadBlocks x) as [[err r'] |]
    end; [| contradiction].
    destruct H as [added H]. cbn [blocks r0 app] in H.
    exists err, r', added.
    split; [reflexivity | split].
    + rewrite H. unfold Block_Read, bind, ret.
      now destruct (Tape.Process Tape.zero body).
    + apply Process_untouched.
  - intros rd s.
    destruct (TurboSpeedData_Read_result rd Blocks.TurboSpeedData_zero s)
      as (t' & err & s' & -> & HD & _).
    exact HD.
Qed.

End ContainerFacts.

(** ** Concrete tapes *)

(** On the tags 16h, 17h, 34h and 40h the dispatcher has no case. *)
Lemma deprecated_tags_unknown :
  ~ In x16 known_tags /\ ~ In x17 known_tags /\
  ~ In x34 known_tags /\ ~ In x40 known_tags.
Proof. repeat split; simpl; intuition discriminate. Qed.

Lemma unsupported_tag_aborts_witness :
  let r := @mkReader bare [x16; x00] (mkheader ZXTape x1a x01 x14) tt [] in
  @readDataBlock bare x16 [x00]
  = ((None, Some (UnsupportedBlockID x16)), [x00]) /\
  ReadBlocks r
  = Some (Some (Wrapped (UnsupportedBlockID x16)
                        "Unable to complete reading TZX blocks"),
          mkReader [x00] (hdr r) (archive r) (blocks r)).
Proof.
  apply (@unsupported_tag_aborts bare
           (@mkReader bare [x16; x00] (mkheader ZXTape x1a x01 x14) tt [])
           x16 [x00]).
  - reflexivity.
  - simpl. intuition discriminate.
Defined.

(** A valid header and a turbo speed block that declares two data bytes, AA
    BB, and holds them: decoding returns nil and one block record, and the
    record's data slot is empty.  The routine of package [blocks] on the same
    block, tag included, returns nil and a record with a nil data block. *)
Lemma turbo_payload_not_retained :
  (exists r block,
      @decode bare (validHeader x14 ++ x11
                      :: turboBody [x04; x00] [x02; x00; x00] [xaa; xbb])
      = Some (None, Some r)
      /\ blocks r = [Some (TurboSpeedData block)]
      /\ Tape.Data block = []
      /\ Tape.Data block <> [xaa; xbb])
  /\
  (exists block,
      Blocks.TurboSpeedData_Read bufio.Read_buffered Blocks.TurboSpeedData_zero
        (x11 :: turboBody [x04; x00] [x02; x00; x00] [xaa; xbb])
      = ((block, None), [])
      /\ Blocks.Length block = 2
      /\ Blocks.DataBlock block = None
      /\ Blocks.DataBlock block <> Some [xaa; xbb]).
Proof.
  split.
  - eexists. eexists. vm_compute. repeat split. discriminate.
  - eexists. vm_compute. repeat split. discriminate.
Qed.

(** A tape with two archive info blocks, AA and BB, a loop end between them
    and a group end after, read by a reader whose archive field holds 99: the
    field ends as BB alone. *)
Lemma archive_holds_last_archive_info_witness :
  let tape := [x32; x01; xaa; x25; x32; x01; xbb; x22] in
  let p := [x01; xbb; x22] in
  @ArchiveTape sampleArchive tape (Some p) /\
  (exists bl',
      ReadBlocks (@mkReader sampleArchive tape header_zero [x99] [])
      = Some (None,
              @mkReader sampleArchive [] header_zero
                        (fst (@ArchiveInfo_Read sampleArchive
                                (@ArchiveInfo_zero sampleArchive) p))
                        bl')) /\
  fst (@ArchiveInfo_Read sampleArchive (@ArchiveInfo_zero sampleArchive) p)
  = [xbb] /\
  fst (@ArchiveInfo_Read sampleArchive (@ArchiveInfo_zero sampleArchive)
         [x01; xaa; x25; x32; x01; xbb; x22])
  = [xaa].
Proof.
  assert (T : @ArchiveTape sampleArchive
                [x32; x01; xaa; x25; x32; x01; xbb; x22]
                (Some [x01; xbb; x22])).
  { apply (@AT_archive sampleArchive [x01; xaa; x25; x32; x01; xbb; x22]
                       (Some [x01; xbb; x22])).
    apply (@AT_block sampleArchive x25 LoopEnd [x32; x01; xbb; x22]
                     (Some [x01; xbb; x22]) eq_refl).
    apply (@AT_archive sampleArchive [x01; xbb; x22] None).
    apply (@AT_block sampleArchive x22 GroupEnd [] None eq_refl).
    apply AT_end. }
  split; [exact T |].
  split; [| split; reflexivity].
  apply (@archive_holds_last_archive_info sampleArchive
           [x32; x01; xaa; x25; x32; x01; xbb; x22] (Some [x01; xbb; x22])
           header_zero [x99] [] T).
Defined.

(** * Further properties of the decoders and of the reader *)

(** ** The block routines of package [blocks] *)

Lemma fold_append (name acc : list byte) :
  fold_left (fun acc b => acc ++ [b]) name acc = acc ++ name.
Proof.
  revert acc. induction name as [| b name IH]; intros acc; simpl.
  - now rewrite app_nil_r.
  - rewrite IH, <- app_assoc. reflexivity.
Qed.

(** X1.  [GroupStart.Read] on a length byte followed by that many bytes:
    the length goes to its slot, the bytes are appended to the name the
    record already holds, and the reader stops right after them. *)
Theorem GroupStart_Read_layout (g : Blocks.GroupStart) (n : byte)
        (name rest : stream) :
  N.to_nat (Byte.to_N n) = length name ->
  Blocks.GroupStart_Read g (n :: name ++ rest)
  = ({| Blocks.gsLength := n;
        Blocks.GroupName := Blocks.GroupName g ++ name |},
     rest).
Proof.
  intros Hlen. unfold Blocks.GroupStart_Read, bind. read_fields.
  unfold FieldReader.ReadNextBytes. rewrite Hlen, ReadBytes_app.
  unfold ret. now rewrite fold_append.
Qed.

Lemma GroupStart_Read_layout_witness :
  N.to_nat (Byte.to_N x02) = length [x41; x42] /\
  Blocks.GroupStart_Read (Blocks.mkGroupStart x00 [x3e]) (x02 :: [x41; x42] ++ [x22])
  = ({| Blocks.gsLength := x02; Blocks.GroupName := [x3e] ++ [x41; x42] |},
     [x22]).
Proof.
  split; [reflexivity|].
  apply (GroupStart_Read_layout (Blocks.mkGroupStart x00 [x3e]) x02
                                [x41; x42] [x22]).
  reflexivity.
Defined.

(** X2.  [TurboSpeedData.Read] of package [blocks] on a first byte other
    than 11h: it returns the expected-ID error, has read that one byte only,
    and has set no slot but the block ID. *)
Theorem TurboSpeedData_Read_wrong_tag
        (rd : nat -> stream -> nat * option error)
        (t : Blocks.TurboSpeedData) (b : byte) (rest : stream) :
  b <> x11 ->
  Blocks.TurboSpeedData_Read rd t (b :: rest)
  = ((Blocks.with_BlockID t b, Some (ExpectedBlockID x11 b)), rest).
Proof.
  intros Hne. unfold Blocks.TurboSpeedData_Read, bind. read_fields.
  destruct (Byte.eqb b Blocks.TurboSpeedData_Id) eqn:E.
  - apply Byte.byte_dec_bl in E. contradiction.
  - reflexivity.
Qed.

Lemma TurboSpeedData_Read_wrong_tag_witness :
  x10 <> x11 /\
  Blocks.TurboSpeedData_Read bufio.Read_buffered Blocks.TurboSpeedData_zero
    (x10 :: [x01; x02])
  = ((Blocks.with_BlockID Blocks.TurboSpeedData_zero x10,
      Some (ExpectedBlockID x11 x10)),
     [x01; x02]).
Proof.
  split; [discriminate|].
  apply (TurboSpeedData_Read_wrong_tag bufio.Read_buffered
           Blocks.TurboSpeedData_zero x10 [x01; x02]).
  discriminate.
Defined.

(** X3.  [TurboSpeedData.Read] of package [blocks] on the tag 11h, the
    fixed fields and a 3-byte length N: every field is in its slot,
    little-endian, the length is the 24-bit value of the three bytes, and the
    data block is as it was.  It then asks [reader.Read] once for N bytes:
    the error it returns is the error of that call, and the reader moves on
    by the count the call reports, at most N. *)
Theorem TurboSpeedData_Read_decodes_block
      (rd : nat -> stream -> nat * option error) (t : Blocks.TurboSpeedData)
      (b0 b1 b2 b3 b4 b5 b6 b7 b8 b9 b10 b11 u p0 p1 n0 n1 n2 : byte)
      (tail : stream) :
  let N := Z.to_nat (byteZ n0 + 256 * byteZ n1 + 65536 * byteZ n2) in
  Blocks.TurboSpeedData_Read rd t
    (x11 :: b0 :: b1 :: b2 :: b3 :: b4 :: b5 :: b6 :: b7 :: b8 :: b9 :: b10
         :: b11 :: u :: p0 :: p1 :: n0 :: n1 :: n2 :: tail)
  = (({| Blocks.BlockID := x11;
         Blocks.PilotPulse := byteZ b0 + 256 * byteZ b1;
         Blocks.SyncFirstPulse := byteZ b2 + 256 * byteZ b3;
         Blocks.SyncSecondPulse := byteZ b4 + 256 * byteZ b5;
         Blocks.ZeroBitPulse := byteZ b6 + 256 * byteZ b7;
         Blocks.OneBitPulse := byteZ b8 + 256 * byteZ b9;
         Blocks.PilotTone := byteZ b10 + 256 * byteZ b11;
         Blocks.UsedBits := u;
         Blocks.Pause := byteZ p0 + 256 * byteZ p1;
         Blocks.Length := byteZ n0 + 256 * byteZ n1 + 65536 * byteZ n2;
         Blocks.DataBlock := Blocks.DataBlock t |},
      snd (rd N tail)),
     skipn (Nat.min (fst (rd N tail)) N) tail)
  /\ (Nat.min (fst (rd N tail)) N <= N)%nat.
Proof.
  intros N. split; [apply TurboSpeedData_Read_layout | apply Nat.le_min_r].
Qed.

(** X4.  Whatever the stream holds, a record [TurboSpeedData.Read] fills
    from the zero value has a length below 2^24, although the slot is 32
    bits wide, and its data block is still nil. *)
Theorem TurboSpeedData_Read_length_bound
        (rd : nat -> stream -> nat * option error) (s : stream) :
  0 <= Blocks.Length (fst (fst (Blocks.TurboSpeedData_Read
                                  rd Blocks.TurboSpeedData_zero s))) < 2 ^ 24
  /\ Blocks.DataBlock (fst (fst (Blocks.TurboSpeedData_Read
                                   rd Blocks.TurboSpeedData_zero s))) = None.
Proof.
  destruct (TurboSpeedData_Read_result rd Blocks.TurboSpeedData_zero s)
    as (t & err & s' & -> & HD & HL).
  cbn [fst]. split; [| exact HD].
  apply HL. cbn. split; [lia | reflexivity].
Qed.

(** ** Opening a tape *)

Lemma byteZ_is_1 (b : byte) : (byteZ b =? 1) = true <-> b = x01.
Proof.
  split.
  - destruct b; vm_compute; intros H; (reflexivity || discriminate).
  - intros ->. reflexivity.
Qed.

Section ReaderProperties.

Context {lib : BlockLibrary}.

(** What [NewReader] returns, by the three ways the stream can stand. *)
Lemma NewReader_cases (s : stream) :
  (s = [] /\ NewReader s = ((None, Some (BinaryReadFailed EOF)), []))
  \/ (s <> [] /\ (length s < 10)%nat /\
      NewReader s = ((None, Some (BinaryReadFailed ErrUnexpectedEOF)), []))
  \/ ((10 <= length s)%nat /\ firstn 7 s <> ZXTape /\
      NewReader s = ((None, Some NotCorrectFormat), []))
  \/ ((10 <= length s)%nat /\ firstn 7 s = ZXTape /\
      NewReader s
      = ((Some (mkReader (skipn 10 s)
                         (mkheader (firstn 7 s) (nth 7 s x00) (nth 8 s x00)
                                   (nth 9 s x00))
                         ArchiveInfo_zero []),
          None),
         if (byteZ (nth 8 s x00) =? 1) && (byteZ (nth 9 s x00) <? 20)
         then [VersionWarning (nth 8 s x00) (nth 9 s x00)] else [])).
Proof.
  unfold NewReader, readHeader, bind, binary_Read_header.
  destruct s as [| b s]; [left; split; reflexivity | right].
  destruct (length (b :: s) <? 10)%nat eqn:Hlen;
    cbv beta iota zeta; cbn [snd fst ret Signature].
  - apply Nat.ltb_lt in Hlen. left. repeat split; [discriminate | exact Hlen].
  - apply Nat.ltb_ge in Hlen. right.
    destruct (bytes_eqb (firstn 7 (b :: s)) ZXTape) eqn:Hsig; cbn [negb ret].
    + right. apply bytes_eqb_eq in Hsig. rewrite valid_accepts.
      cbn [MajorVersion MinorVersion]. repeat split; assumption.
    + left. repeat split; [exact Hlen |].
      intros H. apply bytes_eqb_eq in H. congruence.
Qed.

(** X5.  The error of [NewReader]: a wrapped [io.EOF] on an empty stream, a
    wrapped [io.ErrUnexpectedEOF] on one to nine bytes, the not-in-correct-
    format error on ten bytes or more that do not start with the signature,
    and nil otherwise.  The reader is nil exactly when the error is not. *)
Theorem NewReader_error_cases (s : stream) :
  snd (fst (NewReader s))
  = match s with
    | [] => Some (BinaryReadFailed EOF)
    | _ :: _ =>
        if (length s <? 10)%nat then Some (BinaryReadFailed ErrUnexpectedEOF)
        else if bytes_eqb (firstn 7 s) ZXTape then None
             else Some NotCorrectFormat
    end
  /\ (fst (fst (NewReader s)) = None <-> snd (fst (NewReader s)) <> None).
Proof.
  destruct (NewReader_cases s) as [[-> ->] | [(Hne & Hlen & ->) |
    [(Hlen & Hsig & ->) | (Hlen & Hsig & ->)]]]; cbn [fst snd].
  - split; [reflexivity | split; [discriminate | reflexivity]].
  - destruct s as [| b s]; [contradiction|].
    apply Nat.ltb_lt in Hlen. rewrite Hlen.
    split; [reflexivity | split; [discriminate | reflexivity]].
  - destruct s as [| b s]; [simpl in Hlen; lia|].
    apply Nat.ltb_ge in Hlen. rewrite Hlen.
    destruct (bytes_eqb (firstn 7 (b :: s)) ZXTape) eqn:E.
    + apply bytes_eqb_eq in E. contradiction.
    + split; [reflexivity | split; [discriminate | reflexivity]].
  - destruct s as [| b s]; [simpl in Hlen; lia|].
    apply Nat.ltb_ge in Hlen. rewrite Hlen.
    apply bytes_eqb_eq in Hsig. rewrite Hsig.
    split; [reflexivity | split; [discriminate | intros H; now elim H]].
Qed.

(** X6.  A reader [NewReader] returns comes with a nil error; it stands
    right after the tenth byte, holds the ten bytes as its header, with the
    signature in it, and has an empty block list and the zero archive. *)
Theorem NewReader_reads_ten_bytes (s : stream) (r : Reader)
        (err : option error) (out : list output) :
  NewReader s = ((Some r, err), out) ->
  err = None /\
  reader r = skipn 10 s /\
  hdr r = mkheader ZXTape (nth 7 s x00) (nth 8 s x00) (nth 9 s x00) /\
  s = ZXTape ++ [Terminator (hdr r); MajorVersion (hdr r); MinorVersion (hdr r)]
        ++ reader r /\
  archive r = ArchiveInfo_zero /\
  blocks r = [].
Proof.
  destruct (NewReader_cases s) as [[_ ->] | [(_ & _ & ->) |
    [(_ & _ & ->) | (Hlen & Hsig & ->)]]]; try discriminate.
  do 10 (destruct s as [| ? s]; [simpl in Hlen; lia|]).
  cbn in Hsig. unfold ZXTape in Hsig.
  injection Hsig as -> -> -> -> -> -> ->.
  intros [= <- <- _]. cbn. repeat split.
Qed.

(** X7.  [NewReader] prints the version warning exactly when the stream
    holds ten bytes that start with the signature, the major version is 1 and
    the minor version is below 20; it never prints anything else. *)
Theorem NewReader_warning_iff (s : stream) :
  (snd (NewReader s) <> []
   <-> (10 <= length s)%nat /\ firstn 7 s = ZXTape /\
       nth 8 s x00 = x01 /\ byteZ (nth 9 s x00) < 20)
  /\ (snd (NewReader s) = [] \/
      snd (NewReader s) = [VersionWarning (nth 8 s x00) (nth 9 s x00)]).
Proof.
  destruct (NewReader_cases s) as [[-> ->] | [(Hne & Hlen & ->) |
    [(Hlen & Hsig & ->) | (Hlen & Hsig & ->)]]]; cbn [fst snd].
  - split; [| now left].
    split; [intros H; now elim H | intros [H _]; simpl in H; lia].
  - split; [| now left].
    split; [intros H; now elim H | intros [H _]; lia].
  - split; [| now left].
    split; [intros H; now elim H | intros (_ & H & _); contradiction].
  - destruct (byteZ (nth 8 s x00) =? 1) eqn:Emaj;
      destruct (byteZ (nth 9 s x00) <? 20) eqn:Emin; cbn [andb].
    + split; [| now right]. apply byteZ_is_1 in Emaj. apply Z.ltb_lt in Emin.
      split; [intros _; now repeat split | intros _; discriminate].
    + split; [| now left]. apply Z.ltb_ge in Emin.
      split; [intros H; now elim H | intros (_ & _ & _ & H); lia].
    + split; [| now left].
      split; [intros H; now elim H |].
      intros (_ & _ & H & _). apply byteZ_is_1 in H. congruence.
    + split; [| now left].
      split; [intros H; now elim H |].
      intros (_ & _ & H & _). apply byteZ_is_1 in H. congruence.
Qed.

End ReaderProperties.

Lemma NewReader_reads_ten_bytes_witness :
  let s := validHeader x0a ++ [x25] in
  let r := @mkReader bare [x25] (mkheader ZXTape x1a x01 x0a) tt [] in
  @NewReader bare s = ((Some r, None), [VersionWarning x01 x0a]) /\
  (@None error = None /\
   reader r = skipn 10 s /\
   hdr r = mkheader ZXTape (nth 7 s x00) (nth 8 s x00) (nth 9 s x00) /\
   s = ZXTape ++ [Terminator (hdr r); MajorVersion (hdr r); MinorVersion (hdr r)]
         ++ reader r /\
   archive r = ArchiveInfo_zero /\
   blocks r = []).
Proof.
  split; [reflexivity|].
  apply (@NewReader_reads_ten_bytes bare (validHeader x0a ++ [x25])
           (@mkReader bare [x25] (mkheader ZXTape x1a x01 x0a) tt [])
           None [VersionWarning x01 x0a]).
  reflexivity.
Defined.

(** ** Reading the blocks *)

Section ReadBlocksProperties.

Context {lib : BlockLibrary}.

(** X8.  What [readDataBlock] returns, by its tag: for 32h nil and nil with
    nothing read; for a tag with no case nil and the unsupported-ID error with
    nothing read; for every other tag a block and nil, never a block and an
    error.  For the seven variants whose [Id()] is in the sources (turbo speed
    data, group start and end, loop start and end, stop the tape if 48K, set
    signal level) the [Id()] of the block returned is the tag. *)
Theorem readDataBlock_by_tag (id : byte) (s : stream) :
  match readDataBlock id s with
  | ((Some block, None), _) =>
      id <> x32 /\ In id known_tags /\
      match block with
      | Other _ _ => True
      | TurboSpeedData _ => Tape.Id = id
      | GroupStart _ => x21 = id
      | GroupEnd => x22 = id
      | LoopStart _ => x24 = id
      | LoopEnd => x25 = id
      | StopTapeWhen48kMode _ => x2a = id
      | SetSignalLevel _ => SetSignalLevel.Id = id
      end
  | ((None, None), s') => id = x32 /\ s' = s
  | ((None, Some err), s') =>
      err = UnsupportedBlockID id /\ s' = s /\ ~ In id known_tags
  | ((Some _, Some _), _) => False
  end.
Proof.
  unfold readDataBlock.
  destruct (readDataBlock_switch id) as [block | [ob err]] eqn:Hsw.
  - destruct (switch_block_Id id block Hsw) as [HId Hne].
    unfold bind, ret. pose proof (Block_Read_Id block s) as H.
    destruct (Block_Read block s) as [b' s']. simpl in H.
    repeat split; [assumption | |].
    + destruct (in_dec Byte.byte_eq_dec id known_tags) as [Hin | Hout];
        [assumption|].
      rewrite (switch_unknown id Hout) in Hsw. discriminate.
    + rewrite <- HId, <- H. now destruct b'.
  - destruct (switch_early id ob err Hsw) as [-> [[-> ->] | [-> Hout]]];
      unfold ret; repeat split; assumption.
Qed.

Lemma body_prepend (front : list (option Block)) (r : Reader) :
  ReadBlocks_body (prepend_blocks front r)
  = match ReadBlocks_body r with
    | Continue r' => Continue (prepend_blocks front r')
    | Return err r' => Return err (prepend_blocks front r')
    end.
Proof.
  destruct (reader r) as [| id s] eqn:Er.
  - rewrite (body_eof r Er), (body_eof (prepend_blocks front r) Er).
    reflexivity.
  - destruct (readDataBlock_switch id) as [block | [ob err]] eqn:Hsw.
    + rewrite (body_block r id s block Er Hsw),
        (body_block (prepend_blocks front r) id s block Er Hsw).
      unfold prepend_blocks. cbn. now rewrite app_assoc.
    + destruct (switch_early id ob err Hsw) as [_ [[_ ->] | [_ Hout]]].
      * rewrite (body_archive r s Er),
          (body_archive (prepend_blocks front r) s Er). reflexivity.
      * rewrite (body_unsupported r id s Er Hout),
          (body_unsupported (prepend_blocks front r) id s Er Hout).
        reflexivity.
Qed.

(** X9.  The blocks a reader already holds have no part in what
    [ReadBlocks] does: with [front] put before the block list, the call
    returns the same error and leaves the same reader, with [front] before
    its block list. *)
Theorem ReadBlocks_prepend (front : list (option Block)) (r : Reader) :
  ReadBlocks (prepend_blocks front r)
  = match ReadBlocks r with
    | Some (err, r') => Some (err, prepend_blocks front r')
    | None => None
    end.
Proof.
  pattern r. apply ReadBlocks_turns_ind; clear r.
  - intros r err r' E. rewrite (ReadBlocks_return _ _ _ E).
    apply ReadBlocks_return. now rewrite body_prepend, E.
  - intros r r1 E IH. rewrite (ReadBlocks_continue _ _ E), <- IH.
    apply ReadBlocks_continue. now rewrite body_prepend, E.
Qed.

Lemma ReadBlocks_outcome_cases (r : Reader) :
  match ReadBlocks r with
  | Some (None, r') => reader r' = [] /\ hdr r' = hdr r
  | Some (Some err, r') =>
      hdr r' = hdr r /\
      exists id,
        err = Wrapped (UnsupportedBlockID id)
                      "Unable to complete reading TZX blocks"
        /\ ~ In id known_tags
  | None => False
  end.
Proof.
  pattern r. apply ReadBlocks_turns_ind; clear r.
  - intros r err r' E. rewrite (ReadBlocks_return _ _ _ E).
    destruct (body_cases r) as [[_ E'] | [(id & s & _ & Hout & E') |
      [(s & _ & E') | (id & s & block & _ & _ & _ & E')]]];
      rewrite E' in E; try discriminate; injection E as <- <-.
    + now split.
    + split; [reflexivity | eauto].
  - intros r r1 E IH. rewrite (ReadBlocks_continue _ _ E).
    assert (Hh : hdr r1 = hdr r).
    { destruct (body_cases r) as [[_ E'] | [(id & s & _ & Hout & E') |
        [(s & _ & E') | (id & s & block & _ & _ & _ & E')]]];
        rewrite E' in E; try discriminate; now injection E as <-. }
    destruct (ReadBlocks r1) as [[[err |] r'] |]; [| | contradiction];
      now rewrite <- Hh.
Qed.

(** X10.  [ReadBlocks] returns nil only with the reader at the end of the
    input; the only error it returns is the wrapped unsupported-ID error of a
    tag [readDataBlock] has no case for; either way the header is as it
    was. *)
Theorem ReadBlocks_outcome (r : Reader) :
  match ReadBlocks r with
  | Some (None, r') => reader r' = [] /\ hdr r' = hdr r
  | Some (Some err, r') =>
      hdr r' = hdr r /\
      exists id,
        err = Wrapped (UnsupportedBlockID id)
                      "Unable to complete reading TZX blocks"
        /\ ~ In id known_tags
  | None => False
  end.
Proof. apply ReadBlocks_outcome_cases. Qed.

(** X11.  A second [ReadBlocks] after one that returned nil returns nil and
    leaves the reader as it found it. *)
Theorem ReadBlocks_again (r r' : Reader) :
  ReadBlocks r = Some (None, r') -> ReadBlocks r' = Some (None, r').
Proof.
  intros H. pose proof (ReadBlocks_outcome_cases r) as Hout.
  rewrite H in Hout. destruct Hout as [Hend _].
  rewrite (ReadBlocks_return _ _ _ (body_eof r' Hend)).
  destruct r' as [s h a bl]. simpl in Hend. now subst.
Qed.

(** X12.  [ReadBlocks] returns within one turn more than there are bytes
    to read: it reads at most one tag and appends at most one block for each
    byte of input, and never moves the reader back. *)
Theorem ReadBlocks_bounded (r : Reader) :
  match ReadBlocks r with
  | Some (_, r') =>
      (length (blocks r') <= length (blocks r) + length (reader r))%nat /\
      (length (ReadBlocks_tags r) <= length (reader r))%nat /\
      (length (reader r') <= length (reader r))%nat
  | None => False
  end.
Proof.
  pattern r. apply ReadBlocks_turns_ind; clear r.
  - intros r err r' E.
    rewrite (ReadBlocks_return _ _ _ E), (ReadBlocks_tags_return _ _ _ E).
    destruct (body_return_keeps _ _ _ E) as [-> _].
    repeat split; simpl; try lia.
    destruct (body_cases r) as [[Er E'] | [(id & s & Er & _ & E') |
      [(s & _ & E') | (id & s & block & _ & _ & _ & E')]]];
      rewrite E' in E; try discriminate; injection E as _ <-;
      rewrite Er; simpl; lia.
  - intros r r1 E IH. rewrite (ReadBlocks_continue _ _ E).
    pose proof (body_shorter _ _ E) as Hlt.
    destruct (ReadBlocks r1) as [[err r'] |]; [| contradiction].
    destruct IH as (Hb & Ht & Hr).
    destruct (body_cases r) as [[_ E'] | [(id & s & _ & _ & E') |
      [(s & Er & E') | (id & s & block & Er & _ & _ & E')]]];
      rewrite E' in E; try discriminate;
      rewrite (ReadBlocks_tags_continue _ _ _ _ E' Er);
      injection E as <-; simpl in *;
      try rewrite length_app in Hb; simpl in *; repeat split; lia.
Qed.

(** *** One turn for each block in the sources *)

Lemma turn (r : Reader) (id : byte) (s : stream) (block : Block) :
  reader r = id :: s -> readDataBlock_switch id = inl block ->
  ReadBlocks r
  = ReadBlocks (mkReader (snd (Block_Read block s)) (hdr r) (archive r)
                         (blocks r ++ [Some (fst (Block_Read block s))])).
Proof.
  intros Er Hsw. apply ReadBlocks_continue.
  now apply (body_block r id s block).
Qed.

(** X13.  The reader on the blocks of fixed size: a loop start (24h) is
    the tag and a 16-bit repetition count; a stop-the-tape-if-48K block (2Ah)
    is the tag and the 4-byte length; a set signal level block (2Bh) is the
    tag, the 4-byte length and the level byte.  Each is appended with its
    fields decoded little-endian and reading goes on right after it. *)
Theorem ReadBlocks_fixed_size_blocks (h : header) (a : ArchiveInfo)
        (bl : list (option Block)) (b0 b1 b2 b3 level : byte) (s : stream) :
  ReadBlocks (mkReader (x24 :: b0 :: b1 :: s) h a bl)
  = ReadBlocks
      (mkReader s h a
         (bl ++ [Some (LoopStart
                         {| Blocks.RepetitionCount :=
                              byteZ b0 + 256 * byteZ b1 |})]))
  /\
  ReadBlocks (mkReader (x2a :: b0 :: b1 :: b2 :: b3 :: s) h a bl)
  = ReadBlocks
      (mkReader s h a
         (bl ++ [Some (StopTapeWhen48kMode
                         {| Blocks.stLength :=
                              byteZ b0 + 256 * byteZ b1 + 65536 * byteZ b2
                              + 16777216 * byteZ b3 |})]))
  /\
  ReadBlocks (mkReader (x2b :: b0 :: b1 :: b2 :: b3 :: level :: s) h a bl)
  = ReadBlocks
      (mkReader s h a
         (bl ++ [Some (SetSignalLevel
                         {| SetSignalLevel.Length :=
                              byteZ b0 + 256 * byteZ b1 + 65536 * byteZ b2
                              + 16777216 * byteZ b3;
                            SetSignalLevel.SignalLevel := level |})])).
Proof.
  repeat split.
  - rewrite (turn (mkReader (x24 :: b0 :: b1 :: s) h a bl) x24 (b0 :: b1 :: s)
                  _ eq_refl eq_refl).
    unfold Block_Read, Blocks.LoopStart_Read, bind. read_fields. reflexivity.
  - rewrite (turn (mkReader (x2a :: b0 :: b1 :: b2 :: b3 :: s) h a bl) x2a
                  (b0 :: b1 :: b2 :: b3 :: s) _ eq_refl eq_refl).
    unfold Block_Read, Blocks.StopTapeWhen48kMode_Read, bind. read_fields.
    reflexivity.
  - rewrite (turn (mkReader (x2b :: b0 :: b1 :: b2 :: b3 :: level :: s) h a bl)
                  x2b (b0 :: b1 :: b2 :: b3 :: level :: s) _ eq_refl eq_refl).
    unfold Block_Read, SetSignalLevel.Process, bind. read_fields. reflexivity.
Qed.

(** X14.  The reader on a group: a group start (21h) with a length byte
    and a name of that length, then a group end (22h).  Both records are
    appended, the name as read, and reading goes on after the group end. *)
Theorem ReadBlocks_group (h : header) (a : ArchiveInfo)
        (bl : list (option Block)) (n : byte) (name s : stream) :
  N.to_nat (Byte.to_N n) = length name ->
  ReadBlocks (mkReader (x21 :: n :: name ++ x22 :: s) h a bl)
  = ReadBlocks
      (mkReader s h a
         (bl ++ [Some (GroupStart {| Blocks.gsLength := n;
                                     Blocks.GroupName := name |});
                 Some GroupEnd])).
Proof.
  intros Hlen.
  rewrite (turn (mkReader (x21 :: n :: name ++ x22 :: s) h a bl) x21
                (n :: name ++ x22 :: s) _ eq_refl eq_refl).
  unfold Block_Read at 1 2, bind.
  unfold Blocks.GroupStart_Read, bind. read_fields.
  unfold FieldReader.ReadNextBytes. rewrite Hlen, ReadBytes_app.
  unfold ret. cbn [fst snd reader hdr archive blocks Blocks.GroupName].
  rewrite fold_append. cbn [app].
  match goal with
  | |- ReadBlocks (mkReader (x22 :: s) ?h' ?a' ?bl') = _ =>
      rewrite (turn (mkReader (x22 :: s) h' a' bl') x22 s _ eq_refl eq_refl)
  end.
  cbn. now rewrite <- app_assoc.
Qed.

(** *** Runs of markers *)

Lemma ReadBlocks_markers_step (ms : list Marker) :
  forall (tail : stream) (h : header) (a : ArchiveInfo)
         (bl : list (option Block)),
    ReadBlocks (mkReader (map Marker_tag ms ++ tail) h a bl)
    = ReadBlocks
        (mkReader tail h a (bl ++ map (fun m => Some (Marker_block m)) ms)).
Proof.
  induction ms as [| m ms IH]; intros tail h a bl.
  - simpl. now rewrite app_nil_r.
  - cbn [map app].
    rewrite (turn (mkReader (Marker_tag m :: map Marker_tag ms ++ tail) h a bl)
                  (Marker_tag m) (map Marker_tag ms ++ tail)
                  (Marker_block m) eq_refl);
      [| destruct m; reflexivity].
    replace (Block_Read (Marker_block m) (map Marker_tag ms ++ tail))
      with (Marker_block m, map Marker_tag ms ++ tail)
      by (destruct m; reflexivity).
    cbn [fst snd reader hdr archive blocks].
    rewrite IH, <- app_assoc. reflexivity.
Qed.

(** X15.  A valid header followed by any run of group-end and loop-end
    tags decodes, with nil, to the run of their records in the same order,
    with the reader at the end of the input. *)
Theorem marker_tape_decodes (minor : byte) (ms : list Marker) :
  decode (validHeader minor ++ map Marker_tag ms)
  = Some (None,
          Some (mkReader [] (mkheader ZXTape x1a x01 minor) ArchiveInfo_zero
                         (map (fun m => Some (Marker_block m)) ms))).
Proof.
  unfold decode, validHeader. rewrite <- app_assoc. cbn [app].
  rewrite NewReader_signature.
  rewrite <- (app_nil_r (map Marker_tag ms)), ReadBlocks_markers_step.
  cbn [app].
  match goal with
  | |- match ReadBlocks ?r with _ => _ end = _ =>
      rewrite (ReadBlocks_return _ _ _ (body_eof r eq_refl))
  end.
  reflexivity.
Qed.

(** X16.  The blocks read before a tag with no case are kept: after a run
    of markers and such a tag, [ReadBlocks] returns the wrapped
    unsupported-ID error with the markers' records appended and the reader
    right after the tag. *)
Theorem blocks_before_unsupported_tag_kept (h : header) (a : ArchiveInfo)
        (bl : list (option Block)) (ms : list Marker) (id : byte)
        (rest : stream) :
  ~ In id known_tags ->
  ReadBlocks (mkReader (map Marker_tag ms ++ id :: rest) h a bl)
  = Some (Some (Wrapped (UnsupportedBlockID id)
                        "Unable to complete reading TZX blocks"),
          mkReader rest h a (bl ++ map (fun m => Some (Marker_block m)) ms)).
Proof.
  intros Hout. rewrite ReadBlocks_markers_step.
  apply ReadBlocks_return.
  match goal with
  | |- ReadBlocks_body ?r = _ =>
      now rewrite (body_unsupported r id rest eq_refl Hout)
  end.
Qed.

End ReadBlocksProperties.

Lemma ReadBlocks_again_witness :
  let r := @mkReader bare [x25] header_zero tt [] in
  let r' := @mkReader bare [] header_zero tt [Some LoopEnd] in
  ReadBlocks r = Some (None, r') /\ ReadBlocks r' = Some (None, r').
Proof.
  split; [reflexivity|].
  apply (@ReadBlocks_again bare (@mkReader bare [x25] header_zero tt [])
           (@mkReader bare [] header_zero tt [Some LoopEnd])).
  reflexivity.
Defined.

Lemma ReadBlocks_group_witness :
  N.to_nat (Byte.to_N x02) = length [x41; x42] /\
  ReadBlocks (@mkReader bare (x21 :: x02 :: [x41; x42] ++ x22 :: [x25])
                        header_zero tt [])
  = ReadBlocks
      (@mkReader bare [x25] header_zero tt
         ([] ++ [Some (GroupStart {| Blocks.gsLength := x02;
                                     Blocks.GroupName := [x41; x42] |});
                 Some GroupEnd])).
Proof.
  split; [reflexivity|].
  apply (@ReadBlocks_group bare header_zero tt [] x02 [x41; x42] [x25]).
  reflexivity.
Defined.

Lemma blocks_before_unsupported_tag_kept_witness :
  ~ In x16 known_tags /\
  ReadBlocks (@mkReader bare (map Marker_tag [MLoopEnd; MGroupEnd]
                                ++ x16 :: [x25])
                        header_zero tt [])
  = Some (Some (Wrapped (UnsupportedBlockID x16)
                        "Unable to complete reading TZX blocks"),
          @mkReader bare [x25] header_zero tt
            ([] ++ map (fun m => Some (Marker_block m)) [MLoopEnd; MGroupEnd])).
Proof.
  assert (H : ~ In x16 known_tags) by (simpl; intuition discriminate).
  split; [exact H|].
  apply (@blocks_before_unsupported_tag_kept bare header_zero tt []
           [MLoopEnd; MGroupEnd] x16 [x25] H).
Defined.
